(** * End-to-end scenario scripts of [testsprite_tests]: control-flow model

    Every script under [testsprite_tests/] defines one coroutine [run_test]
    and runs it with [asyncio.run].  The seven scripts share their first 47
    lines (session acquisition, opening navigation, tolerant load-state
    waits) and their [finally] block; they differ in the authored steps, in
    the text of the terminal assertion, in its timeout and in the message of
    the error raised when it fails.

    The browser driver is external.  It is modelled by an oracle that, given
    the calls made so far and the call being made, says whether the call
    returns or raises, and which frames the page has.  The embedding threads
    the call log and the three local handles ([pw], [browser], [context])
    through a small state-and-exception monad. *)

From Stdlib Require Import List String ZArith Bool Lia.
Import ListNotations.
Open Scope string_scope.
Open Scope Z_scope.
Open Scope list_scope.

(** ** Exceptions *)

(** The exception classes the scripts distinguish.  [TimeoutError] is the
    driver's subclass of [async_api.Error]. *)
Inductive exn : Type :=
| Error (message : string)
| TimeoutError (message : string)
| AssertionError (message : string)
| IndexError (message : string)
| OtherException (class_name : string).

(** [except async_api.Error] *)
Definition is_async_api_Error (e : exn) : bool :=
  match e with
  | Error _ | TimeoutError _ => true
  | _ => false
  end.

(** [except AssertionError] *)
Definition is_AssertionError (e : exn) : bool :=
  match e with
  | AssertionError _ => true
  | _ => false
  end.

(** ** Calls *)

Definition Frame := nat.

(** The operations a script performs, with the arguments it passes.  A
    locator is resolved lazily by the driver, so the selector travels with
    the action performed on it; [locator(sel).nth(0)] is the only form the
    scripts use. *)
Inductive call : Type :=
| async_playwright_start
| chromium_launch (headless : bool) (args : list string)
| browser_new_context
| context_set_default_timeout (ms : Z)
| context_new_page
| page_goto (url : string) (wait_until : option string) (timeout : Z)
| page_wait_for_load_state (state : string) (timeout : Z)
| frame_wait_for_load_state (frame : Frame) (state : string) (timeout : Z)
| asyncio_sleep (seconds : Z)
| context_pages_last
| page_wait_for_timeout (ms : Z)
| locator_click (selector : string) (timeout : Z)
| locator_fill (selector : string) (value : string)
| page_evaluate (expression : string)
| page_mouse_wheel (delta_x : Z)
| expect_to_be_visible (selector : string) (timeout : Z)
| context_close
| browser_close
| pw_stop.

Definition is_wait_for_load_state (c : call) : bool :=
  match c with
  | page_wait_for_load_state _ _ | frame_wait_for_load_state _ _ _ => true
  | _ => false
  end.

Definition is_expect (c : call) : bool :=
  match c with
  | expect_to_be_visible _ _ => true
  | _ => false
  end.

Definition is_sleep (c : call) : bool :=
  match c with
  | asyncio_sleep _ => true
  | _ => false
  end.

Definition is_release (c : call) : bool :=
  match c with
  | context_close | browser_close | pw_stop => true
  | _ => false
  end.

Definition is_goto (c : call) : bool :=
  match c with
  | page_goto _ _ _ => true
  | _ => false
  end.

(** The calls of a LocateAndAct step and of the scroll step of TC009. *)
Definition is_act (c : call) : bool :=
  match c with
  | context_pages_last | page_wait_for_timeout _
  | locator_click _ _ | locator_fill _ _
  | page_evaluate _ | page_mouse_wheel _ => true
  | _ => false
  end.

(** ** The driver *)

(** [raises history c] is the exception with which call [c] ends when made
    after the calls of [history], [None] when it returns; [frames history]
    is the value of [page.frames] at that point. *)
Record Driver : Type := {
  raises : list call -> call -> option exn;
  frames : list call -> list Frame
}.

(** ** Scenarios *)

Inductive Action : Type :=
| click (timeout : Z)
| fill (value : string).

(** The statement groups the scripts are made of after the shared opening:
    [await page.goto(url, timeout=t)]; [await asyncio.sleep(n)];
    [frame = context.pages[-1]; elem = frame.locator(sel).nth(0);
     await page.wait_for_timeout(3000); await elem.<action>];
    [await page.mouse.wheel(dx, await page.evaluate(expr))]. *)
Inductive Step : Type :=
| Navigate (url : string) (timeout : Z)
| Sleep (seconds : Z)
| LocateAndAct (selector : string) (action : Action)
| Scroll (delta_x : Z) (expression : string).

Record Scenario : Type := {
  steps : list Step;
  expected : string;
  assert_timeout : Z;
  failure_message : string
}.

(** ** State and monad *)

Inductive Playwright : Type := playwright_obj.
Inductive Browser : Type := browser_obj.
Inductive BrowserContext : Type := context_obj.

(** The call log and the locals of [run_test] that its [finally] block
    reads. *)
Record State : Type := mkState {
  trace : list call;
  pw : option Playwright;
  browser : option Browser;
  ctx : option BrowserContext
}.

Definition initial : State := mkState [] None None None.

Inductive Res (A : Type) : Type :=
| Ret (a : A)
| Exc (e : exn).
Arguments Ret {A} a.
Arguments Exc {A} e.

Definition M (A : Type) : Type := State -> Res A * State.

Definition ret {A} (a : A) : M A := fun s => (Ret a, s).

Definition bind {A B} (m : M A) (k : A -> M B) : M B :=
  fun s =>
    match m s with
    | (Ret a, s') => k a s'
    | (Exc e, s') => (Exc e, s')
    end.

Definition raise {A} (e : exn) : M A := fun s => (Exc e, s).

Notation "m ;; k" := (bind m (fun _ => k))
  (at level 61, right associativity).

(** [try: body except <class>: handler] *)
Definition try_except {A} (body : M A) (class : exn -> bool) (handler : M A)
  : M A :=
  fun s =>
    match body s with
    | (Exc e, s') => if class e then handler s' else (Exc e, s')
    | r => r
    end.

(** [try: body finally: cleanup].  An exception raised by [cleanup]
    replaces the outcome of [body]. *)
Definition try_finally {A} (body : M A) (cleanup : M unit) : M A :=
  fun s =>
    match body s with
    | (r, s') =>
        match cleanup s' with
        | (Ret _, s'') => (r, s'')
        | (Exc e, s'') => (Exc e, s'')
        end
    end.

(** [for x in xs: f x] *)
Fixpoint for_each {A} (xs : list A) (f : A -> M unit) : M unit :=
  match xs with
  | [] => ret tt
  | x :: xs' => f x ;; for_each xs' f
  end.

(** [if h: body] on a handle that is [None] or an object. *)
Definition truthy {A} (h : option A) : bool :=
  match h with
  | Some _ => true
  | None => false
  end.

Definition when (b : bool) (body : M unit) : M unit :=
  if b then body else ret tt.

Definition log (c : call) (s : State) : State :=
  mkState (trace s ++ [c]) (pw s) (browser s) (ctx s).

Definition set_pw (s : State) : Res unit * State :=
  (Ret tt, mkState (trace s) (Some playwright_obj) (browser s) (ctx s)).
Definition set_browser (s : State) : Res unit * State :=
  (Ret tt, mkState (trace s) (pw s) (Some browser_obj) (ctx s)).
Definition set_context (s : State) : Res unit * State :=
  (Ret tt, mkState (trace s) (pw s) (browser s) (Some context_obj)).

(** The opening navigation target, identical in the seven scripts. *)
Definition start_url : string :=
  "http://localhost:8080/C:\Users\John Patrick Robles\Documents\firebnb-spark day5".

Definition launch_args : list string :=
  [ "--window-size=1280,720"; "--disable-dev-shm-usage";
    "--ipc=host"; "--single-process" ].

Section Run.

Variable d : Driver.

(** A driver operation, awaited or a synchronous accessor such as
    [context.pages[-1]]: it returns or raises as the driver decides, and
    is logged either way. *)
Definition invoke (c : call) : M unit :=
  fun s =>
    match raises d (trace s) c with
    | None => (Ret tt, log c s)
    | Some e => (Exc e, log c s)
    end.

(** [await asyncio.sleep(n)]: no driver involved, it returns. *)
Definition sleep (n : Z) : M unit :=
  fun s => (Ret tt, log (asyncio_sleep n) s).

(** [try: await c except async_api.Error: pass] *)
Definition tolerant (c : call) : M unit :=
  try_except (invoke c) is_async_api_Error (ret tt).

Definition exec_action (selector : string) (a : Action) : M unit :=
  match a with
  | click t => invoke (locator_click selector t)
  | fill v => invoke (locator_fill selector v)
  end.

Definition exec_step (st : Step) : M unit :=
  match st with
  | Navigate url t => invoke (page_goto url None t)
  | Sleep n => sleep n
  | LocateAndAct selector a =>
      invoke context_pages_last ;;
      invoke (page_wait_for_timeout 3000) ;;
      exec_action selector a
  | Scroll dx expression =>
      invoke (page_evaluate expression) ;;
      invoke (page_mouse_wheel dx)
  end.

(** Lines 12-30: session acquisition. *)
Definition acquire : M unit :=
  invoke async_playwright_start ;; set_pw ;;
  invoke (chromium_launch true launch_args) ;; set_browser ;;
  invoke browser_new_context ;; set_context ;;
  invoke (context_set_default_timeout 5000) ;;
  invoke context_new_page.

(** Lines 33-46: opening navigation and the tolerant waits. *)
Definition opening : M unit :=
  invoke (page_goto start_url (Some "commit") 10000) ;;
  tolerant (page_wait_for_load_state "domcontentloaded" 3000) ;;
  (fun s =>
     for_each (frames d (trace s))
       (fun frame =>
          tolerant (frame_wait_for_load_state frame "domcontentloaded" 3000))
       s).

(** The terminal assertion and the settle delay. *)
Definition verify (sc : Scenario) : M unit :=
  invoke context_pages_last ;;
  try_except
    (invoke (expect_to_be_visible (expected sc) (assert_timeout sc)))
    is_AssertionError
    (raise (AssertionError (failure_message sc))) ;;
  sleep 5.

(** The [try] block. *)
Definition scenario_body (sc : Scenario) : M unit :=
  acquire ;;
  opening ;;
  for_each (steps sc) exec_step ;;
  verify sc.

(** The [finally] block. *)
Definition teardown : M unit :=
  (fun s => when (truthy (ctx s)) (invoke context_close) s) ;;
  (fun s => when (truthy (browser s)) (invoke browser_close) s) ;;
  (fun s => when (truthy (pw s)) (invoke pw_stop) s).

Definition run_test (sc : Scenario) : M unit :=
  try_finally (scenario_body sc) teardown.

End Run.

(** [asyncio.run(run_test())] *)
Definition run (d : Driver) (sc : Scenario) : Res unit * State :=
  run_test d sc initial.

(** ** The seven scripts *)

Definition TC004 : Scenario :=
  {| steps :=
      [ Navigate "http://localhost:8080/login" 10000;
        Sleep 3;
        Navigate "http://localhost:8080/" 10000;
        Sleep 3;
        Navigate "http://localhost:8080/login" 10000;
        Sleep 3;
        LocateAndAct "xpath=html/body/div/div[2]/div/div/div[2]/div[2]/a" (click 5000);
        LocateAndAct "xpath=html/body/div/div[2]/section[3]/div/div/div[2]/div/a" (click 5000);
        LocateAndAct "xpath=html/body/div/div[2]/div[2]/div/div[3]/div/div[2]/form/div/div/input" (fill "Test");
        LocateAndAct "xpath=html/body/div/div[2]/div[2]/div/div[3]/div/div[2]/form/div[2]/div/input" (fill "12345abc");
        LocateAndAct "xpath=html/body/div/div[2]/div[2]/div/div[3]/div/div[2]/form/button" (click 5000);
        LocateAndAct "xpath=html/body/div/div[2]/div[2]/div/div[3]/div/div[2]/form/div/div/input" (fill "host@example.com");
        LocateAndAct "xpath=html/body/div/div[2]/div[2]/div/div[3]/div/div[2]/form/button" (click 5000);
        LocateAndAct "xpath=html/body/div/div[2]/div[2]/div/div[3]/div/div[2]/form/button" (click 5000) ];
     expected := "text=Listing Published Successfully";
     assert_timeout := 1000;
     failure_message :=
       "Test case failed: The listing creation test did not pass as expected. The listing was not saved as a draft and images were not confirmed uploaded. Expected 'draft' status and image previews, but these were not found on the page." |}.

Definition TC005 : Scenario :=
  {| steps :=
      [ Navigate "http://localhost:8080/login" 10000;
        Sleep 3;
        Navigate "http://localhost:8080/" 10000;
        Sleep 3;
        Navigate "http://localhost:8080/login" 10000;
        Sleep 3;
        LocateAndAct "xpath=html/body/div/div[2]/footer/div/div/div[2]/ul/li[4]/a" (click 5000);
        Navigate "http://localhost:8080/host/listings" 10000;
        Sleep 3;
        Navigate "http://localhost:8080/admin/listings" 10000;
        Sleep 3;
        LocateAndAct "xpath=html/body/div/div[2]/div/div/div/div[2]/button" (click 5000);
        LocateAndAct "xpath=html/body/div[3]/div[2]/button[2]" (click 5000);
        LocateAndAct "xpath=html/body/div/div[2]/div/div/div/div[2]/button[2]" (click 5000);
        LocateAndAct "xpath=html/body/div[3]/div[2]/button[2]" (click 5000) ];
     expected := "text=Listing payment successful and status is now pending approval";
     assert_timeout := 30000;
     failure_message :=
       "Test case failed: After host pays the listing publish fee via PayPal, the listing status did not change to pending approval as expected, or admin approval/rejection process did not complete successfully." |}.

Definition TC008 : Scenario :=
  {| steps :=
      [ LocateAndAct "xpath=html/body/div/div[2]/div/div/div[2]/div[2]/a" (click 5000);
        LocateAndAct "xpath=html/body/div/div[2]/section[3]/div/div/div/div/a" (click 5000);
        LocateAndAct "xpath=html/body/div/div[2]/div[2]/div/div[3]/div/div[2]/form/div/div/input" (fill "Test");
        LocateAndAct "xpath=html/body/div/div[2]/div[2]/div/div[3]/div/div[2]/form/div[2]/div/input" (fill "12345abc");
        LocateAndAct "xpath=html/body/div/div[2]/div[2]/div/div[3]/div/div[2]/form/button" (click 5000);
        LocateAndAct "xpath=html/body/div/div[2]/div[2]/div/div[3]/div/div[2]/form/div/div/input" (fill EmptyString);
        LocateAndAct "xpath=html/body/div/div[2]/div[2]/div/div[3]/div/div[2]/form/div/div/input" (fill "guest@example.com");
        LocateAndAct "xpath=html/body/div/div[2]/div[2]/div/div[3]/div/div[2]/form/div[2]/div/input" (fill "12345abc");
        LocateAndAct "xpath=html/body/div/div[2]/div[2]/div/div[3]/div/div[2]/form/button" (click 5000);
        LocateAndAct "xpath=html/body/div" (click 5000) ];
     expected := "text=Refund Processed Successfully";
     assert_timeout := 1000;
     failure_message :=
       "Test case failed: The test plan execution failed to verify that the guest can pay using wallet or PayPal and request refunds processed correctly with updated transaction records." |}.

Definition TC009 : Scenario :=
  {| steps :=
      [ Navigate "http://localhost:8080/login" 10000;
        Sleep 3;
        Navigate "http://localhost:8080/" 10000;
        Sleep 3;
        Scroll 0 "() => window.innerHeight";
        LocateAndAct "xpath=html/body/div/div[2]/section[3]/div/div/div/div/a" (click 5000);
        LocateAndAct "xpath=html/body/div/div[2]/div[2]/div/div[3]/div/div[2]/form/div/div/input" (fill "Test");
        LocateAndAct "xpath=html/body/div/div[2]/div[2]/div/div[3]/div/div[2]/form/div[2]/div/input" (fill "12345abc");
        LocateAndAct "xpath=html/body/div/div[2]/div[2]/div/div[3]/div/div[2]/form/button" (click 5000);
        LocateAndAct "xpath=html/body/div/div[2]/div[2]/div/div[3]/div/div[2]/form/div/div/input" (fill EmptyString);
        LocateAndAct "xpath=html/body/div/div[2]/div[2]/div/div[3]/div/div[2]/form/div/div/input" (fill "guest@example.com");
        LocateAndAct "xpath=html/body/div/div[2]/div[2]/div/div[3]/div/div[2]/form/div[2]/div/input" (fill "12345abc");
        LocateAndAct "xpath=html/body/div/div[2]/div[2]/div/div[3]/div/div[2]/form/button" (click 5000);
        LocateAndAct "xpath=html/body/div/div[2]/div[2]/div/div[3]/div/div[2]/form/div[3]/button" (click 5000);
        LocateAndAct "xpath=html/body/div/div[2]/div[2]/div/div[3]/form/div/div/input" (fill "guest@example.com");
        LocateAndAct "xpath=html/body/div/div[2]/div[2]/div/div[3]/form/button" (click 5000);
        LocateAndAct "xpath=html/body/div/div[2]/div[2]/div/div[3]/div/div[3]/button[2]" (click 5000);
        LocateAndAct "xpath=html/body/div/div[2]/div[2]/div/div[3]/div/div[2]/form/div/div/input" (fill "guest@example.com");
        LocateAndAct "xpath=html/body/div/div[2]/div[2]/div/div[3]/div/div[2]/form/div[2]/div/input" (fill "newpassword123");
        LocateAndAct "xpath=html/body/div/div[2]/div[2]/div/div[3]/div/div[2]/form/button" (click 5000) ];
     expected := "text=Message delivery confirmed";
     assert_timeout := 1000;
     failure_message :=
       "Test case failed: Real-time messaging between guests and hosts did not work as expected. Messages were not delivered or received immediately as required by the test plan." |}.

Definition TC012 : Scenario :=
  {| steps :=
      [ LocateAndAct "xpath=html/body/div/div[2]/footer/div/div/div[2]/ul/li[4]/a" (click 5000);
        Navigate "http://localhost:8080/host/dashboard" 10000;
        Sleep 3;
        LocateAndAct "xpath=html/body/div/div[2]/div[2]/div/div[3]/div/div[2]/form/div/div/input" (fill "Test");
        LocateAndAct "xpath=html/body/div/div[2]/div[2]/div/div[3]/div/div[2]/form/div[2]/div/input" (fill "12345abc");
        LocateAndAct "xpath=html/body/div/div[2]/div[2]/div/div[3]/div/div[2]/form/button" (click 5000);
        LocateAndAct "xpath=html/body/div/div[2]/div[2]/div/div[3]/div/div[2]/form/div/div/input" (fill "host@example.com");
        LocateAndAct "xpath=html/body/div/div[2]/div[2]/div/div[3]/div/div[2]/form/button" (click 5000);
        LocateAndAct "xpath=html/body/div/div[2]/div[2]/div/div[3]/div/div[2]/form/button" (click 5000);
        LocateAndAct "xpath=html/body/div/div[2]/div[2]/div/div[3]/div/div[2]/form/div[3]/button" (click 5000);
        LocateAndAct "xpath=html/body/div/div[2]/div[2]/div/div[3]/form/div/div/input" (fill "host@example.com");
        LocateAndAct "xpath=html/body/div/div[2]/div[2]/div/div[3]/form/button" (click 5000);
        LocateAndAct "xpath=html/body/div/div[2]/div[2]/div/div[3]/div/div[3]/button[2]" (click 5000);
        LocateAndAct "xpath=html/body/div/div[2]/div[2]/div/div[3]/div/div[2]/form/div/div/input" (fill "host@example.com");
        LocateAndAct "xpath=html/body/div/div[2]/div[2]/div/div[3]/div/div[2]/form/div[2]/div/input" (fill "12345abc");
        LocateAndAct "xpath=html/body/div/div[2]/div[2]/div/div[3]/div/div[2]/form/button" (click 5000) ];
     expected := "text=Booking Confirmed for Blocked Dates";
     assert_timeout := 1000;
     failure_message :=
       "Test case failed: The availability calendar update and booking restrictions for blocked dates were not reflected correctly as per the test plan." |}.

Definition TC015 : Scenario :=
  {| steps :=
      [ LocateAndAct "xpath=html/body/div/div[2]/div/div/div[2]/div[2]/a[2]" (click 5000);
        Navigate "http://localhost:8080/guest/browse" 10000;
        Sleep 3;
        Navigate "http://localhost:8080/" 10000;
        Sleep 3;
        LocateAndAct "xpath=html/body/div/div[2]/section/div[5]/div/div/a" (click 5000);
        LocateAndAct "xpath=html/body/div/div[2]/div[2]/div/div[3]/div/div[2]/form/div/div/input" (fill "guest@example.com");
        LocateAndAct "xpath=html/body/div/div[2]/div[2]/div/div[3]/div/div[2]/form/div[2]/div/input" (fill "12345abc");
        LocateAndAct "xpath=html/body/div/div[2]/div[2]/div/div[3]/div/div[2]/form/button" (click 5000);
        LocateAndAct "xpath=html/body/div/div[2]/div[2]/div/div[3]/div/div[2]/form/div[2]/div/input" (fill "12345abc");
        LocateAndAct "xpath=html/body/div/div[2]/div[2]/div/div[3]/div/div[2]/form/button[2]" (click 5000);
        LocateAndAct "xpath=html/body/div[2]/div/div/div[2]/c-wiz/main/div[2]/div/div/div/form/span/section/div/div/div/div/div/div/div/input" (fill "guest@example.com");
        LocateAndAct "xpath=html/body/div[2]/div/div/div[2]/c-wiz/main/div[3]/div/div/div/div/button" (click 5000) ];
     expected := "text=Listing Added to Favorites and Wishlist Successfully";
     assert_timeout := 1000;
     failure_message :=
       "Test case failed: Guests could not add listings to favorites and wishlists or retrieve them correctly from respective pages as per the test plan." |}.

Definition TC018 : Scenario :=
  {| steps :=
      [ LocateAndAct "xpath=html/body/div/div[2]/footer/div/div/div[2]/ul/li[3]/a" (click 5000);
        LocateAndAct "xpath=html/body/div/div[2]/div[2]/div/div[3]/div/div[2]/form/div/div/input" (fill "Test");
        LocateAndAct "xpath=html/body/div/div[2]/div[2]/div/div[3]/div/div[2]/form/div[2]/div/input" (fill "12345abc");
        LocateAndAct "xpath=html/body/div/div[2]/div[2]/div/div[3]/div/div[2]/form/button" (click 5000);
        LocateAndAct "xpath=html/body/div/div[2]/div[2]/div/div[3]/div/div[2]/form/div/div/input" (fill "guest@example.com");
        LocateAndAct "xpath=html/body/div/div[2]/div[2]/div/div[3]/div/div[2]/form/button" (click 5000);
        LocateAndAct "xpath=html/body/div/div[2]/div[2]/div/div[3]/div/div[2]/form/button" (click 5000) ];
     expected := "text=Platform Load Time Benchmark Exceeded";
     assert_timeout := 1000;
     failure_message :=
       "Test case failed: The platform pages such as login, dashboards, listing browse, and booking did not load within the defined time benchmarks or the UI was not responsive under typical load as per the test plan." |}.

Definition all_scenarios : list Scenario :=
  [TC004; TC005; TC008; TC009; TC012; TC015; TC018].

(** * Call sequences

    A script is straight-line code: the calls it makes are a prefix of one
    fixed sequence, cut at the first call whose exception is not handled. *)

Definition acquire_calls : list call :=
  [ async_playwright_start; chromium_launch true launch_args;
    browser_new_context; context_set_default_timeout 5000;
    context_new_page ].

Definition goto_commit : call := page_goto start_url (Some "commit") 10000.
Definition page_wait : call := page_wait_for_load_state "domcontentloaded" 3000.
Definition frame_wait (f : Frame) : call :=
  frame_wait_for_load_state f "domcontentloaded" 3000.

Definition action_call (selector : string) (a : Action) : call :=
  match a with
  | click t => locator_click selector t
  | fill v => locator_fill selector v
  end.

Definition step_calls (st : Step) : list call :=
  match st with
  | Navigate url t => [page_goto url None t]
  | Sleep n => [asyncio_sleep n]
  | LocateAndAct selector a =>
      [context_pages_last; page_wait_for_timeout 3000; action_call selector a]
  | Scroll dx expression => [page_evaluate expression; page_mouse_wheel dx]
  end.

Definition assertion (sc : Scenario) : call :=
  expect_to_be_visible (expected sc) (assert_timeout sc).

(** The frames the loop of line 42 iterates over. *)
Definition page_frames (d : Driver) : list Frame :=
  frames d (acquire_calls ++ [goto_commit; page_wait]).

(** Everything a script does before its terminal assertion. *)
Definition setup_calls (d : Driver) (sc : Scenario) : list call :=
  acquire_calls ++ [goto_commit; page_wait]
  ++ map frame_wait (page_frames d)
  ++ flat_map step_calls (steps sc) ++ [context_pages_last].

Definition script_calls (d : Driver) (sc : Scenario) : list call :=
  setup_calls d sc ++ [assertion sc; asyncio_sleep 5].

Definition releases : list call := [context_close; browser_close; pw_stop].

(** What a call made after [h] does to the [try] block of a script whose
    assertion message is [msg]: [None] when control goes on to the next
    statement, [Some e] when [e] leaves the block. *)
Definition outcome (d : Driver) (msg : string) (h : list call) (c : call)
  : option exn :=
  if is_sleep c then None
  else
    match raises d h c with
    | None => None
    | Some e =>
        if is_wait_for_load_state c && is_async_api_Error e then None
        else if is_expect c && is_AssertionError e
             then Some (AssertionError msg)
             else Some e
    end.

(** Make the calls [cs] in order after [h], stopping at the first one that
    leaves the block. *)
Fixpoint scan (d : Driver) (msg : string) (h cs : list call)
  : list call * option exn :=
  match cs with
  | [] => (h, None)
  | c :: cs' =>
      match outcome d msg h c with
      | Some e => (h ++ [c], Some e)
      | None => scan d msg (h ++ [c]) cs'
      end
  end.

(** Every call of [cs], made after [h], lets control go on. *)
Definition proceeds (d : Driver) (msg : string) (h cs : list call) : Prop :=
  forall a c b, cs = a ++ c :: b -> outcome d msg (h ++ a) c = None.

(** No release raises, whenever it is made. *)
Definition releases_return (d : Driver) : Prop :=
  forall h c, is_release c = true -> raises d h c = None.

Definition to_res (r : option exn) : Res unit :=
  match r with
  | None => Ret tt
  | Some e => Exc e
  end.

(** Number of calls of a log that returned to the block. *)
Definition returned (h : list call) (r : option exn) : nat :=
  match r with
  | None => List.length h
  | Some _ => pred (List.length h)
  end.

(** The releases the [finally] block attempts after [n] calls returned. *)
Definition due (n : nat) : list call :=
  (if (3 <=? n)%nat then [context_close] else [])
  ++ (if (2 <=? n)%nat then [browser_close] else [])
  ++ (if (1 <=? n)%nat then [pw_stop] else []).

Definition handle {A} (k n : nat) (x : A) : option A :=
  if (k <=? n)%nat then Some x else None.

(** The run of a script, read off its call sequence. *)
Definition run_calls (d : Driver) (sc : Scenario) : Res unit * State :=
  let '(h, r) := scan d (failure_message sc) [] (script_calls d sc) in
  let n := returned h r in
  let '(h', r') := scan d (failure_message sc) h (due n) in
  (to_res (match r' with Some e => Some e | None => r end),
   mkState h' (handle 1 n playwright_obj) (handle 2 n browser_obj)
     (handle 3 n context_obj)).

(** A call sequence run from a state, the handles left alone. *)
Definition lift (p : list call * option exn) (s : State) : Res unit * State :=
  (to_res (snd p), mkState (fst p) (pw s) (browser s) (ctx s)).

(** A program that makes the calls [cs] and touches nothing else. *)
Definition refines (d : Driver) (msg : string) (p : M unit) (cs : list call)
  : Prop :=
  forall s, p s = lift (scan d msg (trace s) cs) s.

(** The releases the [finally] block attempts, by handle. *)
Definition due_of (s : State) : list call :=
  (if truthy (ctx s) then [context_close] else [])
  ++ (if truthy (browser s) then [browser_close] else [])
  ++ (if truthy (pw s) then [pw_stop] else []).

(** Calls whose exceptions no handler of the script intercepts. *)
Definition plain (c : call) : bool :=
  negb (is_sleep c || is_wait_for_load_state c || is_expect c).

(** A call made after the session is acquired. *)
Definition past_acquisition (c : call) : bool :=
  is_goto c || is_act c || is_wait_for_load_state c || is_expect c
  || is_sleep c.

(** ** Drivers used to exercise the scripts *)

(** A driver whose behaviour depends on the call only; the page has its
    main frame. *)
Definition driver_of (f : call -> option exn) : Driver :=
  {| raises := fun _ c => f c; frames := fun _ => [0%nat] |}.

(** Every call returns. *)
Definition obliging : Driver := driver_of (fun _ => None).

Definition target_closed : exn :=
  Error "Target page, context or browser has been closed".
Definition connection_refused : exn :=
  Error "net::ERR_CONNECTION_REFUSED".
Definition not_visible : exn :=
  AssertionError "Locator expected to be visible".
Definition wait_timeout : exn :=
  TimeoutError "Timeout 3000ms exceeded.".

(** Closing the context raises; every other call returns. *)
Definition close_fails : Driver :=
  driver_of (fun c => match c with
                      | context_close => Some target_closed
                      | _ => None
                      end).

(** Every load-state wait times out. *)
Definition waits_time_out : Driver :=
  driver_of (fun c => if is_wait_for_load_state c then Some wait_timeout
                      else None).

(** The authored navigations (those after the opening one) fail. *)
Definition navigation_fails : Driver :=
  driver_of (fun c => match c with
                      | page_goto _ None _ => Some connection_refused
                      | _ => None
                      end).

(** The authored navigations fail and so does closing the context. *)
Definition navigation_and_close_fail : Driver :=
  driver_of (fun c => match c with
                      | page_goto _ None _ => Some connection_refused
                      | context_close => Some target_closed
                      | _ => None
                      end).

(** The expected text never shows. *)
Definition text_missing : Driver :=
  driver_of (fun c => if is_expect c then Some not_visible else None).

(** The expected text never shows and closing the context raises. *)
Definition text_missing_close_fails : Driver :=
  driver_of (fun c => match c with
                      | expect_to_be_visible _ _ => Some not_visible
                      | context_close => Some target_closed
                      | _ => None
                      end).

(** The main-page wait ends with an exception that is not a driver error. *)
Definition wait_cancelled : Driver :=
  driver_of (fun c => match c with
                      | page_wait_for_load_state _ _ =>
                          Some (OtherException "CancelledError")
                      | _ => None
                      end).

(** The browser does not launch. *)
Definition launch_fails : Driver :=
  driver_of (fun c => match c with
                      | chromium_launch _ _ =>
                          Some (Error "Executable doesn't exist")
                      | _ => None
                      end).

(** No context can be created and closing the browser raises. *)
Definition context_and_browser_fail : Driver :=
  driver_of (fun c => match c with
                      | browser_new_context => Some target_closed
                      | browser_close => Some target_closed
                      | _ => None
                      end).

(** A driver in which load-state waits never raise a driver error: where
    [d] raises one, the wait returns. *)
Definition forgiving (d : Driver) : Driver :=
  {| raises := fun h c =>
       match raises d h c with
       | Some e =>
           if is_wait_for_load_state c && is_async_api_Error e then None
           else Some e
       | None => None
       end;
     frames := frames d |}.

Definition is_later_release (c : call) : bool :=
  match c with
  | browser_close | pw_stop => true
  | _ => false
  end.

(** ** Decidable checks on the scripts *)





(** The action of a LocateAndAct step. *)
Definition is_action (c : call) : bool :=
  match c with
  | locator_click _ _ | locator_fill _ _ => true
  | _ => false
  end.

(** Every action of a call sequence comes right after
    [context.pages[-1]] and [page.wait_for_timeout(3000)]. *)
Definition paused (l : list call) : Prop :=
  forall pre c rest,
    l = pre ++ c :: rest ->
    is_action c = true ->
    exists pre', pre = pre' ++ [context_pages_last; page_wait_for_timeout 3000].



(** Stopping the driver raises; every other call returns. *)
Definition stop_fails : Driver :=
  driver_of (fun c => match c with
                      | pw_stop => Some (Error "Connection closed")
                      | _ => None
                      end).


(** * The scripts make their call sequence *)

Lemma outcome_plain d msg h c :
  plain c = true -> outcome d msg h c = raises d h c.
Proof.
  unfold plain, outcome. intros H.
  apply negb_true_iff in H. apply orb_false_iff in H. destruct H as [H He].
  apply orb_false_iff in H. destruct H as [Hs Hw].
  rewrite Hs, Hw, He. destruct (raises d h c); reflexivity.
Qed.

Lemma scan_app d msg cs1 : forall h cs2,
  scan d msg h (cs1 ++ cs2) =
  match scan d msg h cs1 with
  | (h1, None) => scan d msg h1 cs2
  | (h1, Some e) => (h1, Some e)
  end.
Proof.
  induction cs1 as [|c cs1 IH]; intros h cs2; simpl.
  - reflexivity.
  - destruct (outcome d msg h c); [reflexivity | apply IH].
Qed.

Lemma refines_invoke d msg c :
  plain c = true -> refines d msg (invoke d c) [c].
Proof.
  intros H s. unfold invoke, lift. simpl.
  rewrite (outcome_plain d msg _ _ H).
  destruct (raises d (trace s) c); reflexivity.
Qed.

Lemma refines_sleep d msg n : refines d msg (sleep n) [asyncio_sleep n].
Proof. intros s. reflexivity. Qed.

Lemma refines_tolerant d msg c :
  is_wait_for_load_state c = true -> refines d msg (tolerant d c) [c].
Proof.
  intros H s. destruct c; try discriminate H;
    unfold tolerant, try_except, invoke, lift; simpl;
    unfold outcome; simpl;
    (destruct (raises d (trace s) _) as [e|]; [|reflexivity]);
    destruct (is_async_api_Error e); reflexivity.
Qed.

Lemma refines_ret d msg : refines d msg (ret tt) [].
Proof. intros s. destruct s; reflexivity. Qed.

Lemma refines_seq d msg p q cs1 cs2 :
  refines d msg p cs1 -> refines d msg q cs2 ->
  refines d msg (p ;; q) (cs1 ++ cs2).
Proof.
  intros Hp Hq s. unfold bind. rewrite Hp, scan_app.
  destruct (scan d msg (trace s) cs1) as [h1 [e|]]; unfold lift; simpl.
  - reflexivity.
  - rewrite Hq. reflexivity.
Qed.

Lemma refines_for_each d msg {A} (f : A -> M unit) (g : A -> list call) :
  (forall x, refines d msg (f x) (g x)) ->
  forall xs, refines d msg (for_each xs f) (flat_map g xs).
Proof.
  intros Hf xs. induction xs as [|x xs IH]; simpl.
  - apply refines_ret.
  - apply refines_seq; [apply Hf | exact IH].
Qed.

Lemma refines_exec_step d msg st :
  refines d msg (exec_step d st) (step_calls st).
Proof.
  destruct st as [url t|n|sel a|dx ex]; simpl.
  - apply refines_invoke. reflexivity.
  - apply refines_sleep.
  - apply (refines_seq d msg _ _ [_] [_; _]);
      [apply refines_invoke; reflexivity|].
    apply (refines_seq d msg _ _ [_] [_]);
      [apply refines_invoke; reflexivity|].
    destruct a; apply refines_invoke; reflexivity.
  - apply (refines_seq d msg _ _ [_] [_]);
      apply refines_invoke; reflexivity.
Qed.

Lemma refines_assert d sc :
  refines d (failure_message sc)
    (try_except (invoke d (assertion sc)) is_AssertionError
       (raise (AssertionError (failure_message sc))))
    [assertion sc].
Proof.
  intros s. unfold try_except, invoke, lift, raise, assertion. simpl.
  unfold outcome. simpl.
  destruct (raises d (trace s) _) as [e|]; [|reflexivity].
  destruct (is_AssertionError e); reflexivity.
Qed.

Lemma refines_verify d sc :
  refines d (failure_message sc) (verify d sc)
    [context_pages_last; assertion sc; asyncio_sleep 5].
Proof.
  unfold verify.
  apply (refines_seq d _ _ _ [_] [_; _]);
    [apply refines_invoke; reflexivity|].
  apply (refines_seq d _ _ _ [_] [_]);
    [apply refines_assert | apply refines_sleep].
Qed.

Lemma map_flat_map {A B} (f : A -> B) (xs : list A) :
  map f xs = flat_map (fun x => [f x]) xs.
Proof. induction xs; simpl; congruence. Qed.

(** The opening, from any state: the frames are those the driver reports
    after the two calls before the loop. *)
Lemma opening_calls d msg s :
  opening d s =
  lift (scan d msg (trace s)
          ([goto_commit; page_wait]
           ++ map frame_wait (frames d (trace s ++ [goto_commit; page_wait]))))
       s.
Proof.
  unfold opening. fold goto_commit page_wait. unfold bind.
  rewrite (refines_invoke d msg goto_commit eq_refl s).
  change ([goto_commit; page_wait] ++ ?l) with (goto_commit :: page_wait :: l).
  cbn [scan].
  destruct (outcome d msg (trace s) goto_commit) as [e|] eqn:E1.
  - reflexivity.
  - unfold lift at 1. cbn [fst snd to_res].
    rewrite (refines_tolerant d msg page_wait eq_refl).
    cbn [trace scan].
    destruct (outcome d msg (trace s ++ [goto_commit]) page_wait) as [e|] eqn:E2.
    + reflexivity.
    + unfold lift at 1. cbn [fst snd to_res trace].
      rewrite map_flat_map.
      rewrite (refines_for_each d msg _ (fun f => [frame_wait f])).
      * cbn [trace pw browser ctx]. rewrite <- app_assoc. reflexivity.
      * intros f. apply refines_tolerant. reflexivity.
Qed.

Lemma seq_at d msg p q cs1 cs2 s :
  p s = lift (scan d msg (trace s) cs1) s ->
  refines d msg q cs2 ->
  (p ;; q) s = lift (scan d msg (trace s) (cs1 ++ cs2)) s.
Proof.
  intros Hp Hq. unfold bind. rewrite Hp, scan_app.
  destruct (scan d msg (trace s) cs1) as [h1 [e|]]; unfold lift; simpl.
  - reflexivity.
  - rewrite Hq. reflexivity.
Qed.

Lemma scan_returned d msg cs : forall h0 h r,
  scan d msg h0 cs = (h, r) -> (List.length h0 <= returned h r)%nat.
Proof.
  induction cs as [|c cs IH]; intros h0 h r H; simpl in H.
  - inversion H; subst. simpl. lia.
  - destruct (outcome d msg h0 c) as [e|].
    + inversion H; subst. simpl. rewrite length_app. simpl. lia.
    + apply IH in H. rewrite length_app in H. simpl in H. lia.
Qed.

Lemma scan_None d msg cs : forall h0 h,
  scan d msg h0 cs = (h, None) -> h = h0 ++ cs.
Proof.
  induction cs as [|c cs IH]; intros h0 h H; simpl in H.
  - inversion H. now rewrite app_nil_r.
  - destruct (outcome d msg h0 c) as [e|]; [discriminate|].
    apply IH in H. rewrite H, <- app_assoc. reflexivity.
Qed.

Lemma acquire_initial d msg :
  acquire d initial =
  let '(h, r) := scan d msg [] acquire_calls in
  let n := returned h r in
  (to_res r,
   mkState h (handle 1 n playwright_obj) (handle 2 n browser_obj)
     (handle 3 n context_obj)).
Proof.
  unfold acquire, bind, invoke, initial, acquire_calls. simpl.
  unfold outcome. simpl.
  repeat match goal with
         | |- context [raises d ?h ?c] =>
             destruct (raises d h c); simpl; try reflexivity
         end.
Qed.

Lemma teardown_calls d msg s :
  teardown d s = lift (scan d msg (trace s) (due_of s)) s.
Proof.
  destruct s as [t [p|] [b|] [c|]];
    unfold teardown, bind, when, invoke, lift, due_of; simpl;
    unfold outcome; simpl;
    repeat match goal with
           | |- context [raises d ?h ?c] =>
               destruct (raises d h c); simpl; try reflexivity
           end; reflexivity.
Qed.

Lemma due_of_handles h n :
  due_of (mkState h (handle 1 n playwright_obj) (handle 2 n browser_obj)
            (handle 3 n context_obj)) = due n.
Proof.
  unfold due_of, due, handle. cbn [ctx browser pw].
  destruct (3 <=? n)%nat, (2 <=? n)%nat, (1 <=? n)%nat; reflexivity.
Qed.

Lemma handle_le {A} k n (x : A) : (k <= n)%nat -> handle k n x = Some x.
Proof.
  intros H. unfold handle. apply Nat.leb_le in H. now rewrite H.
Qed.

(** The [try] block, from the initial state. *)
Lemma scenario_body_calls d sc :
  scenario_body d sc initial =
  let '(h, r) := scan d (failure_message sc) [] (script_calls d sc) in
  let n := returned h r in
  (to_res r,
   mkState h (handle 1 n playwright_obj) (handle 2 n browser_obj)
     (handle 3 n context_obj)).
Proof.
  set (msg := failure_message sc).
  unfold scenario_body, script_calls, setup_calls.
  rewrite <- !app_assoc. rewrite scan_app.
  unfold bind at 1. rewrite (acquire_initial d msg).
  destruct (scan d msg [] acquire_calls) as [h1 [e|]] eqn:E1.
  - reflexivity.
  - cbn [to_res]. apply scan_None in E1. simpl in E1. subst h1.
    set (s1 := mkState acquire_calls _ _ _).
    assert (H : (opening d ;; for_each (steps sc) (exec_step d) ;; verify d sc) s1
                = lift (scan d msg (trace s1)
                          (([goto_commit; page_wait]
                            ++ map frame_wait (page_frames d))
                           ++ flat_map step_calls (steps sc)
                           ++ [context_pages_last; assertion sc; asyncio_sleep 5]))
                       s1).
    { apply seq_at; [apply opening_calls|].
      apply refines_seq;
        [apply refines_for_each, refines_exec_step | apply refines_verify]. }
    rewrite H. clear H.
    change (trace s1) with acquire_calls.
    replace (([goto_commit; page_wait] ++ map frame_wait (page_frames d))
             ++ flat_map step_calls (steps sc)
             ++ [context_pages_last; assertion sc; asyncio_sleep 5])
      with ([goto_commit; page_wait] ++ map frame_wait (page_frames d)
            ++ flat_map step_calls (steps sc)
            ++ [context_pages_last] ++ [assertion sc; asyncio_sleep 5])
      by (rewrite <- !app_assoc; reflexivity).
    destruct (scan d msg acquire_calls _) as [h r] eqn:E2.
    apply scan_returned in E2.
    change (List.length acquire_calls) with 5%nat in E2.
    unfold lift. cbn [fst snd]. subst s1. cbn [pw browser ctx]. cbn zeta.
    change (returned acquire_calls None) with 5%nat.
    rewrite !handle_le by lia. reflexivity.
Qed.

(** The whole script is its call sequence followed by the releases due. *)
Theorem run_is_run_calls d sc : run d sc = run_calls d sc.
Proof.
  unfold run, run_test, try_finally, run_calls.
  rewrite scenario_body_calls.
  destruct (scan d (failure_message sc) [] (script_calls d sc)) as [h r].
  cbv beta iota zeta. rewrite (teardown_calls d (failure_message sc)).
  rewrite due_of_handles. cbn [trace].
  destruct (scan d (failure_message sc) h (due (returned h r))) as [h' [e|]];
    unfold lift; cbn [fst snd pw browser ctx to_res]; reflexivity.
Qed.

(** * Facts about call sequences *)

Lemma scan_extends d msg cs : forall h0 h r,
  scan d msg h0 cs = (h, r) ->
  exists k, h = h0 ++ k /\ exists rest, cs = k ++ rest.
Proof.
  induction cs as [|c cs IH]; intros h0 h r H; simpl in H.
  - inversion H; subst. exists []. rewrite app_nil_r. split; [reflexivity|].
    now exists [].
  - destruct (outcome d msg h0 c) as [e|].
    + inversion H; subst. exists [c]. split; [reflexivity|]. now exists cs.
    + apply IH in H. destruct H as (k & -> & rest & ->).
      exists (c :: k). rewrite <- app_assoc. split; [reflexivity|].
      now exists rest.
Qed.

(** A call that leaves the block is the last one made. *)
Lemma scan_abort_last d msg cs : forall h0 h r a c b e,
  scan d msg h0 cs = (h, r) ->
  h = h0 ++ a ++ c :: b ->
  outcome d msg (h0 ++ a) c = Some e ->
  b = [] /\ r = Some e.
Proof.
  induction cs as [|c0 cs IH]; intros h0 h r a c b e H Hh Ho; simpl in H.
  - inversion H; subst. exfalso.
    apply (f_equal (@List.length call)) in H1.
    rewrite !length_app in H1. simpl in H1. lia.
  - destruct (outcome d msg h0 c0) as [e0|] eqn:E0.
    + inversion H; subst. apply app_inv_head in H1.
      destruct a as [|x a]; simpl in H1.
      * inversion H1; subst. rewrite app_nil_r in Ho. split; congruence.
      * inversion H1. destruct a; discriminate.
    + pose proof (scan_extends _ _ _ _ _ _ H) as (k & Hk & _).
      destruct a as [|x a].
      * rewrite app_nil_r in Ho. subst h. rewrite <- app_assoc in Hk.
        apply app_inv_head in Hk. simpl in Hk. inversion Hk; subst.
        congruence.
      * assert (x = c0).
        { subst h. rewrite <- app_assoc in Hk. apply app_inv_head in Hk.
          simpl in Hk. now inversion Hk. }
        subst x. apply (IH _ _ _ a c b e H).
        -- rewrite Hh, <- app_assoc. reflexivity.
        -- rewrite <- app_assoc. exact Ho.
Qed.

(** The two ways a sequence ends. *)
Lemma scan_cases d msg cs : forall h0 h r,
  scan d msg h0 cs = (h, r) ->
  (r = None /\ h = h0 ++ cs /\ proceeds d msg h0 cs)
  \/ (exists a c b e,
        r = Some e /\ cs = a ++ c :: b /\ h = h0 ++ a ++ [c]
        /\ proceeds d msg h0 a /\ outcome d msg (h0 ++ a) c = Some e).
Proof.
  induction cs as [|c0 cs IH]; intros h0 h r H; simpl in H.
  - inversion H; subst. left. rewrite app_nil_r. repeat split.
    intros a c b E. destruct a; discriminate.
  - destruct (outcome d msg h0 c0) as [e0|] eqn:E0.
    + inversion H; subst. right. exists [], c0, cs, e0. simpl.
      rewrite app_nil_r. repeat split; trivial.
      intros a c b E. destruct a; discriminate.
    + apply IH in H. destruct H as [(-> & -> & P) | (a & c & b & e & -> & -> & -> & P & O)].
      * left. rewrite <- app_assoc. repeat split.
        intros a c b E. destruct a as [|x a]; simpl in E; inversion E; subst.
        -- now rewrite app_nil_r.
        -- specialize (P a c b eq_refl). now rewrite <- app_assoc in P.
      * right. exists (c0 :: a), c, b, e. rewrite <- !app_assoc in *.
        repeat split; trivial.
        intros a' c' b' E. destruct a' as [|x a']; simpl in E; inversion E; subst.
        -- now rewrite app_nil_r.
        -- specialize (P a' c' b' eq_refl). now rewrite <- app_assoc in P.
Qed.

Lemma proceeds_prefix d msg h a b :
  proceeds d msg h (a ++ b) -> proceeds d msg h a.
Proof.
  intros P x c y E. apply (P x c (y ++ b)). subst a.
  rewrite <- app_assoc. reflexivity.
Qed.

(** Splitting a log at a call that is not a release, when the log ends
    with releases. *)
Lemma split_before_releases (h : list call) : forall rel pre c post,
  h ++ rel = pre ++ c :: post ->
  is_release c = false ->
  (forall x, In x rel -> is_release x = true) ->
  exists b, h = pre ++ c :: b /\ post = b ++ rel.
Proof.
  induction h as [|x h IH]; intros rel pre c post E Hc Hrel; simpl in E.
  - exfalso. assert (In c rel) by (rewrite E; apply in_elt).
    apply Hrel in H. congruence.
  - destruct pre as [|y pre]; simpl in E; inversion E; subst.
    + exists h. split; reflexivity.
    + destruct (IH _ _ _ _ H1 Hc Hrel) as (b & -> & ->).
      exists b. split; reflexivity.
Qed.

Lemma firstn_releases_in k x :
  In x (firstn k releases) -> is_release x = true.
Proof.
  destruct k as [|[|[|k]]]; simpl; try rewrite firstn_nil; simpl; intros H;
    repeat (destruct H as [<-|H]; [reflexivity|]); destruct H.
Qed.

Lemma due_full n : (3 <= n)%nat -> due n = releases.
Proof.
  intros H. unfold due.
  assert (H3 : (3 <=? n)%nat = true) by (apply Nat.leb_le; lia).
  assert (H2 : (2 <=? n)%nat = true) by (apply Nat.leb_le; lia).
  assert (H1 : (1 <=? n)%nat = true) by (apply Nat.leb_le; lia).
  rewrite H3, H2, H1. reflexivity.
Qed.

Lemma due_in n x : In x (due n) -> is_release x = true.
Proof.
  unfold due. intros H.
  destruct (3 <=? n)%nat, (2 <=? n)%nat, (1 <=? n)%nat; simpl in H;
    repeat (destruct H as [<-|H]; [reflexivity|]); destruct H.
Qed.

Lemma outcome_release d msg h c :
  is_release c = true -> outcome d msg h c = raises d h c.
Proof.
  intros H. apply outcome_plain. destruct c; try discriminate; reflexivity.
Qed.

(** The [finally] block on a fully acquired session. *)
Lemma scan_releases d msg h h' r' :
  scan d msg h releases = (h', r') ->
  exists k, (1 <= k)%nat /\ h' = h ++ firstn k releases
    /\ (releases_return d -> r' = None /\ h' = h ++ releases)
    /\ (forall e, raises d h context_close = Some e ->
          h' = h ++ [context_close] /\ r' = Some e)
    /\ (forall e, raises d h context_close = None ->
          raises d (h ++ [context_close]) browser_close = Some e ->
          h' = h ++ [context_close; browser_close] /\ r' = Some e)
    /\ (forall e, raises d h context_close = None ->
          raises d (h ++ [context_close]) browser_close = None ->
          raises d (h ++ [context_close; browser_close]) pw_stop = Some e ->
          h' = h ++ releases /\ r' = Some e).
Proof.
  unfold releases. simpl. rewrite !outcome_release by reflexivity.
  rewrite <- !app_assoc. simpl.
  intros H.
  destruct (raises d h context_close) as [e1|] eqn:E1;
    [|destruct (raises d (h ++ [context_close]) browser_close)
        as [e2|] eqn:E2;
      [|destruct (raises d (h ++ [context_close; browser_close]) pw_stop)
          as [e3|] eqn:E3]];
    inversion H; subst; clear H;
    [exists 1%nat | exists 2%nat | exists 3%nat | exists 3%nat];
    (split; [lia|]); (split; [reflexivity|]);
    (split;
     [intros R;
      first
        [ rewrite (R h context_close eq_refl) in E1; discriminate
        | rewrite (R (h ++ [context_close]) browser_close eq_refl) in E2;
          discriminate
        | rewrite (R (h ++ [context_close; browser_close]) pw_stop eq_refl)
            in E3; discriminate
        | split; reflexivity ]|]);
    (split; [intros e Ha; split; congruence|]);
    (split; [intros e Ha Hb; split; congruence|]);
    intros e Ha Hb Hc; split; congruence.
Qed.

(** * Anatomy of a run *)

Lemma step_calls_no_release st x :
  In x (step_calls st) -> is_release x = false.
Proof.
  destruct st as [url t|n|sel [t|v]|dx ex]; simpl; intros H;
    repeat (destruct H as [<-|H]; [reflexivity|]); destruct H.
Qed.

Lemma script_no_release d sc x :
  In x (script_calls d sc) -> is_release x = false.
Proof.
  unfold script_calls, setup_calls. rewrite !in_app_iff.
  intros [[H|[H|[H|[H|H]]]]|H].
  - simpl in H. repeat (destruct H as [<-|H]; [reflexivity|]). destruct H.
  - simpl in H. repeat (destruct H as [<-|H]; [reflexivity|]). destruct H.
  - apply in_map_iff in H. destruct H as (f & <- & _). reflexivity.
  - apply in_flat_map in H. destruct H as (st & _ & H).
    now apply step_calls_no_release in H.
  - simpl in H. repeat (destruct H as [<-|H]; [reflexivity|]). destruct H.
  - simpl in H. repeat (destruct H as [<-|H]; [reflexivity|]). destruct H.
Qed.

Lemma run_anatomy d sc res s :
  run d sc = (res, s) ->
  exists h r rel r',
    scan d (failure_message sc) [] (script_calls d sc) = (h, r)
    /\ scan d (failure_message sc) h (due (returned h r)) = (h ++ rel, r')
    /\ trace s = h ++ rel
    /\ res = to_res (match r' with Some e => Some e | None => r end)
    /\ (forall x, In x rel -> is_release x = true)
    /\ (forall x, In x h -> is_release x = false)
    /\ pw s = handle 1 (returned h r) playwright_obj
    /\ browser s = handle 2 (returned h r) browser_obj
    /\ ctx s = handle 3 (returned h r) context_obj.
Proof.
  rewrite run_is_run_calls. unfold run_calls.
  destruct (scan d _ [] _) as [h r] eqn:E1. cbv zeta.
  destruct (scan d _ h _) as [h' r'] eqn:E2.
  intros H. inversion H; subst. clear H.
  destruct (scan_extends _ _ _ _ _ _ E2) as (rel & -> & rest & Hd).
  destruct (scan_extends _ _ _ _ _ _ E1) as (k & Hk & rest1 & Hs).
  exists h, r, rel, r'. repeat split; trivial.
  - intros x Hx. apply (due_in (returned h r)). rewrite Hd.
    apply in_or_app. now left.
  - intros x Hx. apply (script_no_release d sc). rewrite Hs.
    simpl in Hk. subst h. apply in_or_app. now left.
Qed.

(** Where a call of the log that is not a release sits in the script. *)
Lemma run_event d sc res s pre c post :
  run d sc = (res, s) ->
  trace s = pre ++ c :: post ->
  is_release c = false ->
  exists h r rel r' b rest,
    scan d (failure_message sc) [] (script_calls d sc) = (h, r)
    /\ scan d (failure_message sc) h (due (returned h r)) = (h ++ rel, r')
    /\ res = to_res (match r' with Some e => Some e | None => r end)
    /\ h = pre ++ c :: b
    /\ post = b ++ rel
    /\ script_calls d sc = pre ++ c :: b ++ rest
    /\ (forall x, In x rel -> is_release x = true).
Proof.
  intros Hrun Ht Hc.
  destruct (run_anatomy _ _ _ _ Hrun)
    as (h & r & rel & r' & E1 & E2 & Etr & Eres & Hrel & _).
  rewrite Etr in Ht.
  destruct (split_before_releases _ _ _ _ _ Ht Hc Hrel) as (b & Hh & Hp).
  destruct (scan_extends _ _ _ _ _ _ E1) as (k & Hk & rest & Hs).
  simpl in Hk. subst k.
  exists h, r, rel, r', b, rest. repeat split; trivial.
  rewrite Hs, Hh, <- app_assoc. reflexivity.
Qed.

Lemma in_front {A} (l1 : list A) : forall l2 pre c rest,
  l1 ++ l2 = pre ++ c :: rest ->
  (List.length pre < List.length l1)%nat -> In c l1.
Proof.
  induction l1 as [|x l1 IH]; intros l2 pre c rest E L; simpl in *.
  - lia.
  - destruct pre as [|y pre]; simpl in *; inversion E; subst.
    + now left.
    + right. apply (IH _ _ _ _ H1). lia.
Qed.

Lemma acquired_before d sc pre c rest :
  script_calls d sc = pre ++ c :: rest ->
  past_acquisition c = true ->
  (5 <= List.length pre)%nat.
Proof.
  intros E Hc.
  destruct (Nat.le_gt_cases 5 (List.length pre)) as [L|L]; [exact L|].
  exfalso. unfold script_calls, setup_calls in E. rewrite <- !app_assoc in E.
  apply in_front in E; [|exact L].
  simpl in E. repeat (destruct E as [<-|E]; [discriminate|]). destruct E.
Qed.

(** A call whose exception leaves the [try] block of an acquired session:
    nothing but releases follows, the script raises, and when the releases
    return it raises that exception after all three. *)
Lemma run_fatal d sc res s pre c post e :
  run d sc = (res, s) ->
  trace s = pre ++ c :: post ->
  past_acquisition c = true ->
  outcome d (failure_message sc) pre c = Some e ->
  (exists k, (1 <= k)%nat /\ post = firstn k releases)
  /\ (exists e', res = Exc e')
  /\ (releases_return d -> post = releases /\ res = Exc e)
  /\ (forall e', raises d (pre ++ [c]) context_close = Some e' ->
        post = [context_close] /\ res = Exc e').
Proof.
  intros Hrun Ht Hc Ho.
  assert (Hnr : is_release c = false) by (destruct c; try reflexivity; discriminate).
  destruct (run_event _ _ _ _ _ _ _ Hrun Ht Hnr)
    as (h & r & rel & r' & b & rest & E1 & E2 & Eres & Hh & Hp & Hs & Hrel).
  destruct (scan_abort_last _ _ _ _ _ _ _ _ _ _ E1 Hh Ho) as [-> ->].
  simpl in Hs, Hp. subst post.
  pose proof (acquired_before _ _ _ _ _ Hs Hc) as L.
  assert (Hn : returned h (Some e) = List.length pre).
  { subst h. unfold returned. rewrite length_app. simpl. lia. }
  rewrite Hn, due_full in E2 by lia.
  destruct (scan_releases _ _ _ _ _ E2) as (k & Hk & E & Hall & Hfirst & _).
  apply app_inv_head in E. subst h.
  split; [exists k; split; trivial|].
  split; [destruct r'; subst res; eexists; reflexivity|].
  split.
  - intros R. destruct (Hall R) as [-> E']. apply app_inv_head in E'.
    split; [congruence | subst res; reflexivity].
  - intros e' He'. destruct (Hfirst e' He') as [E' ->].
    apply app_inv_head in E'. split; [congruence | subst res; reflexivity].
Qed.

(** * Going on after a call *)

(** After a call that lets control go on, the next call of the script is
    made. *)
Lemma run_next d sc res s pre c post c' rest' :
  run d sc = (res, s) ->
  trace s = pre ++ c :: post ->
  is_release c = false ->
  outcome d (failure_message sc) pre c = None ->
  script_calls d sc = pre ++ c :: c' :: rest' ->
  exists post', post = c' :: post'.
Proof.
  intros Hrun Ht Hc Ho Hs.
  destruct (run_event _ _ _ _ _ _ _ Hrun Ht Hc)
    as (h & r & rel & r' & b & rest & E1 & _ & _ & Hh & Hp & Hs' & _).
  rewrite Hs in Hs'. apply app_inv_head in Hs'. inversion Hs' as [Hb].
  destruct b as [|x b]; simpl in Hb.
  - exfalso. destruct (scan_cases _ _ _ _ _ _ E1)
      as [(_ & Hh' & _) | (a & y & z & e & _ & _ & Hh' & _ & Ho')];
      simpl in Hh'; rewrite Hh in Hh'.
    + rewrite Hs in Hh'. apply app_inv_head in Hh'. discriminate.
    + apply app_inj_tail in Hh'. destruct Hh' as [<- <-]. simpl in Ho'. congruence.
  - inversion Hb; subst. eexists. reflexivity.
Qed.

(** After the last call of the script, the [finally] block runs on the
    acquired session and decides the result. *)
Lemma run_completes d sc res s pre c post :
  run d sc = (res, s) ->
  trace s = pre ++ c :: post ->
  is_release c = false ->
  outcome d (failure_message sc) pre c = None ->
  script_calls d sc = pre ++ [c] ->
  exists r',
    scan d (failure_message sc) (pre ++ [c]) releases = (pre ++ c :: post, r')
    /\ res = to_res r'.
Proof.
  intros Hrun Ht Hc Ho Hs.
  destruct (run_event _ _ _ _ _ _ _ Hrun Ht Hc)
    as (h & r & rel & r' & b & rest & E1 & E2 & Eres & Hh & Hp & Hs' & _).
  rewrite Hs in Hs'. apply app_inv_head in Hs'.
  destruct b; [|inversion Hs' as [Hb]; destruct b; discriminate].
  simpl in Hp. subst post.
  assert (r = None).
  { destruct (scan_cases _ _ _ _ _ _ E1)
      as [(-> & _) | (a & y & z & e & _ & _ & Hh' & _ & Ho')]; [reflexivity|].
    simpl in Hh'. rewrite Hh in Hh'. apply app_inj_tail in Hh'.
    destruct Hh' as [<- <-]. simpl in Ho'. congruence. }
  subst r. exists r'.
  assert (L : (3 <= returned h None)%nat).
  { rewrite Hh, <- Hs. unfold returned, script_calls, setup_calls.
    rewrite <- !app_assoc, length_app. simpl. lia. }
  rewrite due_full in E2 by exact L. rewrite Hh in E2.
  rewrite <- app_assoc in E2. simpl in E2.
  split; [exact E2 | destruct r'; exact Eres].
Qed.

Lemma outcome_forgiving d msg h c :
  outcome (forgiving d) msg h c = outcome d msg h c.
Proof.
  unfold outcome, forgiving. simpl.
  destruct (is_sleep c); [reflexivity|].
  destruct (raises d h c) as [e|]; [|reflexivity].
  destruct (is_wait_for_load_state c && is_async_api_Error e) eqn:E.
  - reflexivity.
  - rewrite E. reflexivity.
Qed.

Lemma scan_forgiving d msg cs : forall h,
  scan (forgiving d) msg h cs = scan d msg h cs.
Proof.
  induction cs as [|c cs IH]; intros h; simpl.
  - reflexivity.
  - rewrite outcome_forgiving, IH. reflexivity.
Qed.

Lemma run_forgiving d sc : run (forgiving d) sc = run d sc.
Proof.
  rewrite !run_is_run_calls. unfold run_calls.
  change (script_calls (forgiving d) sc) with (script_calls d sc).
  rewrite scan_forgiving.
  destruct (scan d _ [] _) as [h r]. cbv zeta. rewrite scan_forgiving.
  reflexivity.
Qed.

Lemma outcome_tolerated d msg h c e :
  is_wait_for_load_state c = true ->
  raises d h c = Some e ->
  is_async_api_Error e = true ->
  outcome d msg h c = None.
Proof.
  intros Hw Hr He. unfold outcome. rewrite Hr, Hw, He.
  destruct (is_sleep c); reflexivity.
Qed.

Lemma outcome_untolerated d msg h c e :
  is_wait_for_load_state c = true ->
  raises d h c = Some e ->
  is_async_api_Error e = false ->
  outcome d msg h c = Some e.
Proof.
  intros Hw Hr He. unfold outcome. rewrite Hr, Hw, He.
  destruct c; try discriminate; reflexivity.
Qed.

(** * Calls of required steps *)

Lemma required_step_call c :
  is_goto c || is_act c = true ->
  plain c = true /\ past_acquisition c = true.
Proof. destruct c; simpl; intros H; try discriminate; split; reflexivity. Qed.

(** * The place of the assertion *)

Lemma unique_split {A} (P : A -> bool) (l1 : list A) : forall x l2 pre c rest,
  l1 ++ x :: l2 = pre ++ c :: rest ->
  P c = true ->
  (forall y, In y l1 -> P y = false) ->
  (forall y, In y l2 -> P y = false) ->
  pre = l1 /\ c = x /\ rest = l2.
Proof.
  induction l1 as [|z l1 IH]; intros x l2 pre c rest E Hc H1 H2; simpl in E.
  - destruct pre as [|y pre]; simpl in E; inversion E; subst.
    + repeat split.
    + exfalso. assert (In c (pre ++ c :: rest)) by apply in_elt.
      apply H2 in H. congruence.
  - destruct pre as [|y pre]; simpl in E; inversion E; subst.
    + exfalso. rewrite (H1 c) in Hc; [discriminate | now left].
    + destruct (IH _ _ _ _ _ H3 Hc) as (-> & -> & ->); trivial.
      * intros w Hw. apply H1. now right.
      * repeat split.
Qed.

Lemma step_calls_no_expect st x :
  In x (step_calls st) -> is_expect x = false.
Proof.
  destruct st as [url t|n|sel [t|v]|dx ex]; simpl; intros H;
    repeat (destruct H as [<-|H]; [reflexivity|]); destruct H.
Qed.

Lemma setup_no_expect d sc x :
  In x (setup_calls d sc) -> is_expect x = false.
Proof.
  unfold setup_calls. rewrite !in_app_iff.
  intros [H|[H|[H|[H|H]]]].
  - simpl in H. repeat (destruct H as [<-|H]; [reflexivity|]). destruct H.
  - simpl in H. repeat (destruct H as [<-|H]; [reflexivity|]). destruct H.
  - apply in_map_iff in H. destruct H as (f & <- & _). reflexivity.
  - apply in_flat_map in H. destruct H as (st & _ & H).
    now apply step_calls_no_expect in H.
  - simpl in H. repeat (destruct H as [<-|H]; [reflexivity|]). destruct H.
Qed.

Lemma assertion_position d sc pre c rest :
  script_calls d sc = pre ++ c :: rest ->
  is_expect c = true ->
  pre = setup_calls d sc /\ c = assertion sc /\ rest = [asyncio_sleep 5].
Proof.
  intros E Hc. unfold script_calls in E.
  apply (unique_split is_expect) in E; trivial.
  - apply setup_no_expect.
  - intros y [<-|[]]. reflexivity.
Qed.

Lemma filter_none {A} (P : A -> bool) (l : list A) :
  (forall x, In x l -> P x = false) -> filter P l = [].
Proof.
  induction l as [|x l IH]; intros H; simpl.
  - reflexivity.
  - rewrite (H x) by now left. apply IH. intros y Hy. apply H. now right.
Qed.

Lemma prefix_of_snoc {A} (pre : list A) c b a z :
  pre ++ c :: b = a ++ [z] -> exists t, a = pre ++ t.
Proof.
  intros E. destruct (exists_last (l := c :: b)) as (b' & y & Hb);
    [discriminate|].
  rewrite Hb, app_assoc in E. apply app_inj_tail in E. destruct E as [<- _].
  now exists b'.
Qed.

(** Everything before a call of the log let control go on. *)
Lemma run_before d sc res s pre c post :
  run d sc = (res, s) ->
  trace s = pre ++ c :: post ->
  is_release c = false ->
  proceeds d (failure_message sc) [] pre.
Proof.
  intros Hrun Ht Hc.
  destruct (run_event _ _ _ _ _ _ _ Hrun Ht Hc)
    as (h & r & rel & r' & b & rest & E1 & _ & _ & Hh & _ & Hs & _).
  destruct (scan_cases _ _ _ _ _ _ E1)
    as [(_ & _ & P) | (a & y & z & e & _ & _ & Hh' & P & _)].
  - rewrite Hs in P. now apply proceeds_prefix in P.
  - simpl in Hh'. rewrite Hh in Hh'.
    destruct (prefix_of_snoc _ _ _ _ _ Hh') as (t & ->).
    now apply proceeds_prefix in P.
Qed.

Lemma outcome_None_inv d msg h x :
  outcome d msg h x = None ->
  is_sleep x = true
  \/ raises d h x = None
  \/ (is_wait_for_load_state x = true
      /\ exists e, raises d h x = Some e /\ is_async_api_Error e = true).
Proof.
  unfold outcome. destruct (is_sleep x); [now left|].
  destruct (raises d h x) as [e|]; [|now (right; left)].
  destruct (is_wait_for_load_state x); simpl.
  - destruct (is_async_api_Error e) eqn:E.
    + intros _. right. right. split; [reflexivity|]. now exists e.
    + destruct (is_expect x && is_AssertionError e); discriminate.
  - destruct (is_expect x && is_AssertionError e); discriminate.
Qed.

(** Where an assertion of the log sits, and what came before it. *)
Lemma run_assertion_place d sc res s pre c post :
  run d sc = (res, s) ->
  trace s = pre ++ c :: post ->
  is_expect c = true ->
  c = assertion sc
  /\ pre = setup_calls d sc
  /\ (forall x, In x pre -> is_expect x = false)
  /\ (forall x, In x post -> is_expect x = false)
  /\ (forall a x b,
        pre = a ++ x :: b ->
        is_sleep x = true
        \/ raises d a x = None
        \/ (is_wait_for_load_state x = true
            /\ exists e, raises d a x = Some e
                         /\ is_async_api_Error e = true)).
Proof.
  intros Hrun Ht Hc.
  assert (Hnr : is_release c = false)
    by (destruct c; try discriminate; reflexivity).
  destruct (run_event _ _ _ _ _ _ _ Hrun Ht Hnr)
    as (h & r & rel & r' & b & rest & _ & _ & _ & _ & Hp & Hs & Hrel).
  destruct (assertion_position _ _ _ _ _ Hs Hc) as (Hpre & -> & Hb).
  split; [reflexivity|]. split; [exact Hpre|].
  split; [intros x Hx; rewrite Hpre in Hx; now apply setup_no_expect in Hx|].
  split.
  - intros x Hx. rewrite Hp in Hx. apply in_app_or in Hx.
    destruct Hx as [Hx|Hx].
    + assert (Hin : In x (b ++ rest)) by (apply in_or_app; now left).
      rewrite Hb in Hin. destruct Hin as [<-|[]]. reflexivity.
    + apply Hrel in Hx. destruct x; try discriminate; reflexivity.
  - intros a x y E.
    pose proof (run_before _ _ _ _ _ _ _ Hrun Ht Hnr) as P.
    apply (outcome_None_inv d (failure_message sc)).
    apply (P a x y E).
Qed.

(** * A failed visibility check *)

Lemma outcome_failed_assertion d sc h e :
  raises d h (assertion sc) = Some e ->
  is_AssertionError e = true ->
  outcome d (failure_message sc) h (assertion sc)
  = Some (AssertionError (failure_message sc)).
Proof.
  intros Hr He. unfold outcome, assertion in *. simpl. rewrite Hr, He.
  reflexivity.
Qed.

Lemma authored_messages sc :
  In sc all_scenarios -> prefix "Test case failed: " (failure_message sc) = true.
Proof.
  intros H. simpl in H.
  repeat (destruct H as [<-|H]; [reflexivity|]). destruct H.
Qed.

(** A failed visibility check leaves the [try] block with the authored
    error. *)
Lemma run_failed_assertion d sc res s pre post e :
  run d sc = (res, s) ->
  trace s = pre ++ assertion sc :: post ->
  raises d pre (assertion sc) = Some e ->
  is_AssertionError e = true ->
  (exists k, (1 <= k)%nat /\ post = firstn k releases)
  /\ (exists e', res = Exc e')
  /\ (releases_return d ->
      post = releases /\ res = Exc (AssertionError (failure_message sc))).
Proof.
  intros Hrun Ht Hr He.
  pose proof (outcome_failed_assertion _ _ _ _ Hr He) as Ho.
  destruct (run_fatal _ _ _ _ _ _ _ _ Hrun Ht eq_refl Ho)
    as (Hk & He' & Hall & _).
  repeat split; trivial; now apply Hall.
Qed.

(** * Acquisition and release *)

Lemma script_head d sc :
  exists tl,
    script_calls d sc
    = async_playwright_start :: chromium_launch true launch_args
      :: browser_new_context :: tl.
Proof.
  unfold script_calls, setup_calls, acquire_calls.
  rewrite <- !app_assoc. simpl. eexists. reflexivity.
Qed.

(** How many calls returned tells which acquisitions did. *)
Lemma acquisition_progress d msg tl h r :
  scan d msg []
    (async_playwright_start :: chromium_launch true launch_args
     :: browser_new_context :: tl) = (h, r) ->
  ((1 <= returned h r)%nat <-> raises d [] async_playwright_start = None)
  /\ ((2 <= returned h r)%nat <->
      raises d [] async_playwright_start = None
      /\ raises d [async_playwright_start] (chromium_launch true launch_args)
         = None)
  /\ ((3 <= returned h r)%nat <->
      raises d [] async_playwright_start = None
      /\ raises d [async_playwright_start] (chromium_launch true launch_args)
         = None
      /\ raises d [async_playwright_start; chromium_launch true launch_args]
           browser_new_context = None).
Proof.
  cbn [scan app]. rewrite !outcome_plain by reflexivity.
  destruct (raises d [] async_playwright_start) as [e0|] eqn:E0.
  { intros H. inversion H; subst. simpl.
    repeat split; try lia; intros; try discriminate;
      repeat match goal with H : _ /\ _ |- _ => destruct H end;
      discriminate. }
  destruct (raises d [async_playwright_start] _) as [e1|] eqn:E1.
  { intros H. inversion H; subst. simpl.
    repeat split; try lia; intros; trivial;
      repeat match goal with H : _ /\ _ |- _ => destruct H end;
      discriminate. }
  destruct (raises d [async_playwright_start; _] _) as [e2|] eqn:E2.
  { intros H. inversion H; subst. simpl.
    repeat split; try lia; intros; trivial;
      repeat match goal with H : _ /\ _ |- _ => destruct H end;
      discriminate. }
  intros H. apply scan_returned in H. simpl in H.
  repeat split; trivial; lia.
Qed.

Lemma handle_set {A} k n (x : A) : handle k n x <> None <-> (k <= n)%nat.
Proof.
  unfold handle. destruct (k <=? n)%nat eqn:E.
  - apply Nat.leb_le in E. split; [trivial | discriminate].
  - apply Nat.leb_gt in E. split; [congruence | lia].
Qed.

Lemma due_context n : In context_close (due n) <-> (3 <= n)%nat.
Proof.
  unfold due. rewrite !in_app_iff.
  destruct (3 <=? n)%nat eqn:E3, (2 <=? n)%nat eqn:E2, (1 <=? n)%nat eqn:E1;
    simpl; rewrite ?Nat.leb_le, ?Nat.leb_gt in *;
    intuition (try discriminate; try lia).
Qed.

Lemma due_browser n : In browser_close (due n) <-> (2 <= n)%nat.
Proof.
  unfold due. rewrite !in_app_iff.
  destruct (3 <=? n)%nat eqn:E3, (2 <=? n)%nat eqn:E2, (1 <=? n)%nat eqn:E1;
    simpl; rewrite ?Nat.leb_le, ?Nat.leb_gt in *;
    intuition (try discriminate; try lia).
Qed.

Lemma due_driver n : In pw_stop (due n) <-> (1 <= n)%nat.
Proof.
  unfold due. rewrite !in_app_iff.
  destruct (3 <=? n)%nat eqn:E3, (2 <=? n)%nat eqn:E2, (1 <=? n)%nat eqn:E1;
    simpl; rewrite ?Nat.leb_le, ?Nat.leb_gt in *;
    intuition (try discriminate; try lia).
Qed.

Lemma scan_returning d msg cs : forall h,
  releases_return d ->
  (forall x, In x cs -> is_release x = true) ->
  scan d msg h cs = (h ++ cs, None).
Proof.
  induction cs as [|c cs IH]; intros h R H; simpl.
  - now rewrite app_nil_r.
  - rewrite outcome_release by (apply H; now left).
    rewrite (R h c) by (apply H; now left).
    rewrite IH; trivial.
    + now rewrite <- app_assoc.
    + intros x Hx. apply H. now right.
Qed.

(** A run that returns, or that reached a call made after the
    acquisition, has its session acquired. *)
Lemma session_acquired d sc res s :
  run d sc = (res, s) ->
  res = Ret tt
  \/ (exists pre c post,
        trace s = pre ++ c :: post /\ past_acquisition c = true) ->
  ctx s <> None.
Proof.
  intros Hrun H.
  destruct (run_anatomy _ _ _ _ Hrun)
    as (h & r & rel & r' & E1 & _ & Etr & Eres & _ & _ & _ & _ & Ec).
  rewrite Ec. apply handle_set.
  destruct H as [Hres | (pre & c & post & Ht & Hc)].
  - assert (r = None)
      by (rewrite Hres in Eres; destruct r', r; simpl in Eres;
          try discriminate; reflexivity).
    subst r. apply scan_None in E1. simpl in E1. subst h.
    unfold returned, script_calls, setup_calls.
    rewrite <- !app_assoc, length_app. simpl. lia.
  - assert (Hnr : is_release c = false)
      by (destruct c; try reflexivity; discriminate).
    destruct (run_event _ _ _ _ _ _ _ Hrun Ht Hnr)
      as (h2 & r2 & rel2 & r2' & b & rest & E1' & _ & _ & Hh & _ & Hs & _).
    assert (Eq : h2 = h /\ r2 = r)
      by (rewrite E1 in E1'; inversion E1'; split; reflexivity).
    destruct Eq as [-> ->].
    pose proof (acquired_before _ _ _ _ _ Hs Hc) as L.
    rewrite Hh. unfold returned.
    destruct r; rewrite length_app; simpl; lia.
Qed.

(** * The place of a navigation *)





(** * More about runs *)



Lemma outcome_Some_inv d msg h c e :
  outcome d msg h c = Some e ->
  raises d h c = Some e
  \/ (is_expect c = true /\ e = AssertionError msg
      /\ exists e0, raises d h c = Some e0 /\ is_AssertionError e0 = true).
Proof.
  unfold outcome. destruct (is_sleep c); [discriminate|].
  destruct (raises d h c) as [e0|]; [|discriminate].
  destruct (is_wait_for_load_state c && is_async_api_Error e0);
    [discriminate|].
  destruct (is_expect c) eqn:Ec, (is_AssertionError e0) eqn:Ee; simpl;
    intros H; inversion H; subst; auto.
  right. repeat split. now exists e0.
Qed.

Lemma due_of_state s n :
  pw s = handle 1 n playwright_obj ->
  browser s = handle 2 n browser_obj ->
  ctx s = handle 3 n context_obj ->
  due_of s = due n.
Proof.
  intros Hp Hb Hc. unfold due_of, due. rewrite Hp, Hb, Hc. unfold handle.
  destruct (3 <=? n)%nat, (2 <=? n)%nat, (1 <=? n)%nat; reflexivity.
Qed.

(** Splitting a log at a release. *)
Lemma split_in_releases (h : list call) : forall rel pre c post,
  h ++ rel = pre ++ c :: post ->
  is_release c = true ->
  (forall x, In x h -> is_release x = false) ->
  exists a, pre = h ++ a /\ rel = a ++ c :: post.
Proof.
  induction h as [|x h IH]; intros rel pre c post E Hc Hh; simpl in E.
  - exists pre. now split.
  - destruct pre as [|y pre]; simpl in E; inversion E; subst.
    + rewrite (Hh c) in Hc; [discriminate | now left].
    + destruct (IH _ _ _ _ H1 Hc) as (a & -> & ->).
      * intros z Hz. apply Hh. now right.
      * exists a. now split.
Qed.

Lemma acquire_calls_plain c :
  In c acquire_calls -> plain c = true /\ is_release c = false.
Proof.
  simpl. intros H.
  repeat (destruct H as [<-|H]; [split; reflexivity|]). destruct H.
Qed.

Lemma paused_app l1 l2 : paused l1 -> paused l2 -> paused (l1 ++ l2).
Proof.
  intros P1 P2 pre c rest E Hc.
  apply app_eq_app in E. destruct E as (l & [[E1 E2]|[E1 E2]]).
  - destruct l as [|x l]; simpl in E2.
    + rewrite app_nil_r in E1. subst.
      destruct (P2 [] c rest eq_refl Hc) as (p & Hp).
      destruct p; discriminate.
    + inversion E2; subst. apply (P1 pre _ l eq_refl Hc).
  - subst pre. destruct (P2 l c rest E2 Hc) as (p & ->).
    exists (l1 ++ p). now rewrite app_assoc.
Qed.

Lemma paused_without_action l :
  (forall x, In x l -> is_action x = false) -> paused l.
Proof.
  intros H pre c rest E Hc. rewrite (H c) in Hc; [discriminate|].
  rewrite E. apply in_elt.
Qed.

Lemma paused_step st : paused (step_calls st).
Proof.
  destruct st as [url t|n|sel a|dx ex]; simpl;
    try (apply paused_without_action; simpl; intros x H;
         repeat (destruct H as [<-|H]; [reflexivity|]); now destruct H).
  intros pre c rest E Hc.
  destruct pre as [|x1 [|x2 [|x3 pre]]]; simpl in E; inversion E; subst;
    try discriminate.
  - now exists [].
  - destruct pre; discriminate.
Qed.

Lemma paused_steps l : paused (flat_map step_calls l).
Proof.
  induction l as [|st l IH]; simpl.
  - apply paused_without_action. intros x [].
  - apply paused_app; [apply paused_step | exact IH].
Qed.

Lemma paused_script d sc : paused (script_calls d sc).
Proof.
  assert (Hlit : forall l : list call,
             forallb (fun x => negb (is_action x)) l = true -> paused l).
  { intros l H. apply paused_without_action. intros x Hx.
    rewrite forallb_forall in H. apply H in Hx.
    now apply negb_true_iff in Hx. }
  unfold script_calls, setup_calls.
  apply paused_app; [|now apply Hlit].
  apply paused_app; [now apply Hlit|].
  apply paused_app; [now apply Hlit|].
  apply paused_app.
  { apply paused_without_action. intros x H.
    apply in_map_iff in H. destruct H as (f & <- & _). reflexivity. }
  apply paused_app; [apply paused_steps | now apply Hlit].
Qed.



(** * Releases that raise *)

(** What the [finally] block of an acquired session does, release by
    release. *)
Lemma teardown_after d msg h post r' :
  scan d msg h releases = (h ++ post, r') ->
  (forall a x b e,
     post = a ++ x :: b ->
     raises d (h ++ a) x = Some e ->
     b = [] /\ r' = Some e)
  /\ (post <> releases ->
      exists a x e,
        post = a ++ [x] /\ raises d (h ++ a) x = Some e /\ r' = Some e)
  /\ ((forall a x b, post = a ++ x :: b -> raises d (h ++ a) x = None) ->
      post = releases /\ r' = None).
Proof.
  intros E.
  destruct (scan_extends _ _ _ _ _ _ E) as (k & Hk & rest & Hd).
  apply app_inv_head in Hk. subst k.
  assert (Hin : forall x, In x post -> is_release x = true).
  { intros x Hx. apply (firstn_releases_in 3).
    change (firstn 3 releases) with releases. rewrite Hd.
    apply in_or_app. now left. }
  split; [|split].
  - intros a x b e Hp Hr.
    assert (Ho : outcome d msg (h ++ a) x = Some e).
    { rewrite outcome_release; [exact Hr|]. apply Hin. rewrite Hp.
      apply in_elt. }
    assert (E' : h ++ post = h ++ a ++ x :: b) by now rewrite Hp.
    exact (scan_abort_last _ _ _ _ _ _ _ _ _ _ E E' Ho).
  - intros Hne.
    destruct (scan_cases _ _ _ _ _ _ E)
      as [(_ & Hh & _) | (a & c & b & e & C & Hd' & Hh & _ & Ho)].
    + apply app_inv_head in Hh. contradiction.
    + apply app_inv_head in Hh. exists a, c, e. repeat split; trivial.
      rewrite <- (outcome_release d msg); [exact Ho|].
      apply Hin. rewrite Hh. apply in_or_app. right. now left.
  - intros Hall.
    destruct (scan_cases _ _ _ _ _ _ E)
      as [(C & Hh & _) | (a & c & b & e & C & Hd' & Hh & _ & Ho)].
    + apply app_inv_head in Hh. now split.
    + exfalso. apply app_inv_head in Hh.
      rewrite outcome_release in Ho.
      * rewrite (Hall a c [] Hh) in Ho. discriminate.
      * apply Hin. rewrite Hh. apply in_or_app. right. now left.
Qed.

(** The [finally] block after a call whose exception leaves the [try]
    block of an acquired session. *)
Lemma run_fatal_scan d sc res s pre c post e :
  run d sc = (res, s) ->
  trace s = pre ++ c :: post ->
  past_acquisition c = true ->
  outcome d (failure_message sc) pre c = Some e ->
  exists r',
    scan d (failure_message sc) (pre ++ [c]) releases
    = ((pre ++ [c]) ++ post, r')
    /\ res = to_res (match r' with Some e' => Some e' | None => Some e end).
Proof.
  intros Hrun Ht Hc Ho.
  assert (Hnr : is_release c = false)
    by (destruct c; try reflexivity; discriminate).
  destruct (run_event _ _ _ _ _ _ _ Hrun Ht Hnr)
    as (h & r & rel & r' & b & rest & E1 & E2 & Eres & Hh & Hp & Hs & Hrel).
  destruct (scan_abort_last _ _ _ _ _ _ _ _ _ _ E1 Hh Ho) as [-> ->].
  simpl in Hs, Hp. subst post.
  pose proof (acquired_before _ _ _ _ _ Hs Hc) as L.
  assert (Hn : returned h (Some e) = List.length pre).
  { subst h. unfold returned. rewrite length_app. simpl. lia. }
  rewrite Hn, due_full in E2 by lia.
  exists r'. subst h. split; [exact E2 | exact Eres].
Qed.

(** A release that raises after such a call is the last call and decides
    the result; the teardown is cut short by nothing else; and when the
    releases made all return, the exception of the call is raised after
    three releases. *)
Lemma run_fatal_tail d sc res s pre c post e :
  run d sc = (res, s) ->
  trace s = pre ++ c :: post ->
  past_acquisition c = true ->
  outcome d (failure_message sc) pre c = Some e ->
  (forall a x b e',
     post = a ++ x :: b ->
     raises d (pre ++ c :: a) x = Some e' ->
     b = [] /\ res = Exc e')
  /\ (post <> releases ->
      exists a x e',
        post = a ++ [x]
        /\ raises d (pre ++ c :: a) x = Some e'
        /\ res = Exc e')
  /\ ((forall a x b,
         post = a ++ x :: b -> raises d (pre ++ c :: a) x = None) ->
      post = releases /\ res = Exc e).
Proof.
  intros Hrun Ht Hc Ho.
  destruct (run_fatal_scan _ _ _ _ _ _ _ _ Hrun Ht Hc Ho) as (r' & E & Eres).
  destruct (teardown_after _ _ _ _ _ E) as (H1 & H2 & H3).
  assert (Hassoc : forall a, (pre ++ [c]) ++ a = pre ++ c :: a)
    by (intros a; now rewrite <- app_assoc).
  split; [|split].
  - intros a x b e' Hp Hr. rewrite <- Hassoc in Hr.
    destruct (H1 a x b e' Hp Hr) as [-> ->]. now split.
  - intros Hne. destruct (H2 Hne) as (a & x & e' & Hp & Hr & ->).
    exists a, x, e'. rewrite <- Hassoc. now repeat split.
  - intros Hall.
    destruct H3 as [-> ->].
    + intros a x b Hp. rewrite Hassoc. now apply (Hall a x b).
    + now split.
Qed.

(** A release that raises is the last call of a run and decides its
    result. *)
Lemma raising_release_is_last d sc res s pre c post e :
  run d sc = (res, s) ->
  trace s = pre ++ c :: post ->
  is_release c = true ->
  raises d pre c = Some e ->
  post = [] /\ res = Exc e.
Proof.
  intros Hrun Ht Hc Hr.
  destruct (run_anatomy _ _ _ _ Hrun)
    as (h & r & rel & r' & _ & E2 & Etr & Eres & _ & Hh & _).
  rewrite Etr in Ht.
  destruct (split_in_releases _ _ _ _ _ Ht Hc Hh) as (a & Hpre & Hrel).
  assert (Ho : outcome d (failure_message sc) (h ++ a) c = Some e)
    by (rewrite outcome_release by exact Hc; now rewrite <- Hpre).
  assert (E : h ++ rel = h ++ a ++ c :: post) by now rewrite Hrel.
  destruct (scan_abort_last _ _ _ _ _ _ _ _ _ _ E2 E Ho) as [-> ->].
  split; [reflexivity | exact Eres].
Qed.

(** The releases of a run are those of the handles that are set, in
    order, up to the first one that raises. *)
Lemma releases_up_to_first_raise d sc res s :
  run d sc = (res, s) ->
  exists body rel rest,
    trace s = body ++ rel
    /\ (forall x, In x body -> is_release x = false)
    /\ due_of s = rel ++ rest
    /\ (rest <> [] ->
        exists a c e,
          rel = a ++ [c]
          /\ raises d (body ++ a) c = Some e
          /\ res = Exc e).
Proof.
  intros Hrun.
  destruct (run_anatomy _ _ _ _ Hrun)
    as (h & r & rel & r' & _ & E2 & Etr & Eres & _ & Hh & Ep & Eb & Ec).
  rewrite <- (due_of_state s _ Ep Eb Ec) in E2.
  destruct (scan_extends _ _ _ _ _ _ E2) as (k & Hk & rest & Hd).
  apply app_inv_head in Hk. subst k.
  exists h, rel, rest. repeat split; trivial.
  intros Hrest.
  destruct (scan_cases _ _ _ _ _ _ E2)
    as [(_ & Hh' & _) | (a & c & b & e & C & Hd' & Hh' & _ & Ho)].
  - exfalso. apply app_inv_head in Hh'. rewrite Hh' in Hd.
    rewrite <- (app_nil_r (due_of s)) in Hd at 1.
    apply app_inv_head in Hd. now apply Hrest.
  - apply app_inv_head in Hh'. exists a, c, e. split; [exact Hh'|].
    split.
    + rewrite <- (outcome_release d (failure_message sc)); [exact Ho|].
      rewrite (due_of_state s _ Ep Eb Ec) in Hd'.
      apply (due_in (returned h r)). rewrite Hd'. apply in_elt.
    + rewrite Eres, C. reflexivity.
Qed.

(** * Teardown *)

(** C1 fails as stated.  With a driver whose [context.close()] raises, the
    listing-creation script makes every call of its [try] block, enters the
    [finally] block with all three handles set, and stops there: neither
    [browser.close()] nor [pw.stop()] is called, and the error of the
    context release is what the script raises. *)
Lemma release_error_skips_remaining_releases :
  run close_fails TC004 =
  (Exc target_closed,
   mkState (script_calls close_fails TC004 ++ [context_close])
     (Some playwright_obj) (Some browser_obj) (Some context_obj))
  /\ existsb is_later_release (trace (snd (run close_fails TC004))) = false.
Proof. split; vm_compute; reflexivity. Qed.

(** C1, amended: a run that returns, and a run in which a navigation, an
    action or the assertion was reached, has its session acquired.  In
    every run with an acquired session the log is the calls of the [try]
    block, none of them a release, followed by the releases of the
    [finally] block, made once and in the order context, browser, driver.
    All three are made when every release returns, and fewer than three
    only when the last one made raised.  A release is guarded by the
    truthiness of its handle only: when any of the three raises, the
    releases after it are skipped and its exception is what the script
    raises. *)
Theorem teardown_once_in_order d sc res s :
  run d sc = (res, s) ->
  (res = Ret tt
   \/ (exists pre c post,
         trace s = pre ++ c :: post /\ past_acquisition c = true) ->
   ctx s <> None)
  /\ (ctx s <> None ->
      exists body rel,
        trace s = body ++ rel
        /\ (forall x, In x body -> is_release x = false)
        /\ (exists k, (1 <= k)%nat /\ rel = firstn k releases)
        /\ (releases_return d -> rel = releases)
        /\ (forall e, raises d body context_close = Some e ->
              rel = [context_close] /\ res = Exc e)
        /\ (forall e, raises d body context_close = None ->
              raises d (body ++ [context_close]) browser_close = Some e ->
              rel = [context_close; browser_close] /\ res = Exc e)
        /\ (forall e, raises d body context_close = None ->
              raises d (body ++ [context_close]) browser_close = None ->
              raises d (body ++ [context_close; browser_close]) pw_stop
              = Some e ->
              rel = releases /\ res = Exc e)
        /\ (forall a c b e,
              rel = a ++ c :: b ->
              raises d (body ++ a) c = Some e ->
              b = [] /\ res = Exc e)
        /\ (rel <> releases ->
            exists a c e,
              rel = a ++ [c]
              /\ raises d (body ++ a) c = Some e
              /\ res = Exc e)).
Proof.
  intros Hrun. split; [exact (session_acquired d sc res s Hrun)|].
  intros Hctx.
  destruct (run_anatomy _ _ _ _ Hrun)
    as (h & r & rel & r' & E1 & E2 & Etr & Eres & Hrel & Hh & _ & _ & Ec).
  assert (L : (3 <= returned h r)%nat)
    by (rewrite Ec in Hctx; now apply handle_set in Hctx).
  rewrite due_full in E2 by exact L.
  destruct (scan_releases _ _ _ _ _ E2)
    as (k & Hk & E & Hall & H1 & H2 & H3).
  destruct (teardown_after _ _ _ _ _ E2) as (T1 & T2 & _).
  apply app_inv_head in E.
  exists h, rel.
  split; [exact Etr|]. split; [exact Hh|].
  split; [exists k; now split|].
  split; [intros R; destruct (Hall R) as [_ E'];
          now apply app_inv_head in E'|].
  split; [intros e He; destruct (H1 e He) as [E' ->];
          apply app_inv_head in E'; now split|].
  split; [intros e Ha Hb; destruct (H2 e Ha Hb) as [E' ->];
          apply app_inv_head in E'; now split|].
  split; [intros e Ha Hb Hc; destruct (H3 e Ha Hb Hc) as [E' ->];
          apply app_inv_head in E'; now split|].
  split.
  - intros a c b e Hp Hr. destruct (T1 a c b e Hp Hr) as [-> ->].
    now split.
  - intros Hne. destruct (T2 Hne) as (a & c & e & Hp & Hr & ->).
    exists a, c, e. now repeat split.
Qed.

Lemma teardown_once_in_order_witness :
  exists body rel,
    trace (snd (run obliging TC004)) = body ++ rel
    /\ (forall x, In x body -> is_release x = false)
    /\ rel = releases.
Proof.
  destruct (teardown_once_in_order obliging TC004
              (fst (run obliging TC004)) (snd (run obliging TC004)))
    as (Hacq & Hrel).
  - apply surjective_pairing.
  - destruct Hrel as (body & rel & Ht & Hb & _ & Hall & _).
    + apply Hacq. left. vm_compute. reflexivity.
    + exists body, rel. repeat split; trivial.
      apply Hall. intros h c Hc. reflexivity.
Defined.

(** * Soft waits *)

(** C2: when a load-state wait, of the main page or of a frame, ends with a
    driver error (a timeout included), the statement that follows it in the
    script is executed next, and the run -- its result, its log, its
    handles -- is the run in which no wait raised a driver error. *)
Theorem soft_wait_never_aborts d sc res s pre c post e :
  run d sc = (res, s) ->
  trace s = pre ++ c :: post ->
  is_wait_for_load_state c = true ->
  raises d pre c = Some e ->
  is_async_api_Error e = true ->
  (exists c' post' rest,
     post = c' :: post'
     /\ script_calls d sc = pre ++ c :: c' :: rest
     /\ is_release c' = false)
  /\ run (forgiving d) sc = (res, s).
Proof.
  intros Hrun Ht Hw Hr He.
  split; [|now rewrite run_forgiving].
  assert (Hc : is_release c = false) by (destruct c; try discriminate; reflexivity).
  pose proof (outcome_tolerated d (failure_message sc) _ _ _ Hw Hr He) as Ho.
  destruct (run_event _ _ _ _ _ _ _ Hrun Ht Hc)
    as (h & r & rel & r' & b & rest & _ & _ & _ & _ & _ & Hs & _).
  remember (b ++ rest) as tl eqn:Etl. clear Etl.
  destruct tl as [|c' tl].
  - exfalso. unfold script_calls in Hs.
    change [assertion sc; asyncio_sleep 5]
      with ([assertion sc] ++ [asyncio_sleep 5]) in Hs.
    rewrite app_assoc in Hs. apply app_inj_tail in Hs.
    destruct Hs as [_ <-]. discriminate.
  - destruct (run_next _ _ _ _ _ _ _ _ _ Hrun Ht Hc Ho Hs) as (post' & ->).
    exists c', post', tl. repeat split; trivial.
    apply (script_no_release d sc). rewrite Hs.
    apply in_or_app. right. right. now left.
Qed.

Lemma soft_wait_never_aborts_witness :
  (exists c' post' rest,
     skipn 7 (trace (snd (run waits_time_out TC004))) = c' :: post'
     /\ script_calls waits_time_out TC004
        = (acquire_calls ++ [goto_commit]) ++ page_wait :: c' :: rest
     /\ is_release c' = false)
  /\ run (forgiving waits_time_out) TC004
     = (fst (run waits_time_out TC004), snd (run waits_time_out TC004)).
Proof.
  apply (soft_wait_never_aborts waits_time_out TC004 _ _
           (acquire_calls ++ [goto_commit]) page_wait _ wait_timeout).
  - apply surjective_pairing.
  - vm_compute. reflexivity.
  - reflexivity.
  - reflexivity.
  - reflexivity.
Defined.

(** * Fatal steps *)

(** C3 fails as stated.  When the first authored navigation of the
    listing-creation script fails and [context.close()] then raises, the
    script raises the error of the release, not the navigation error, and
    neither [browser.close()] nor [pw.stop()] is called. *)
Lemma fatal_step_with_failing_release :
  run navigation_and_close_fail TC004 =
  (Exc target_closed,
   mkState
     (acquire_calls
      ++ [goto_commit; page_wait; frame_wait 0%nat;
          page_goto "http://localhost:8080/login" None 10000;
          context_close])
     (Some playwright_obj) (Some browser_obj) (Some context_obj))
  /\ raises navigation_and_close_fail
       (acquire_calls ++ [goto_commit; page_wait; frame_wait 0%nat])
       (page_goto "http://localhost:8080/login" None 10000)
     = Some connection_refused.
Proof. split; vm_compute; reflexivity. Qed.

(** C3, amended: when a call of a Navigate or LocateAndAct step raises, no
    later step and no assertion is executed: the calls that follow are
    releases only, starting with [context.close()] and in the order context,
    browser, driver, and the script raises.  When the releases return, all
    three are made and the exception of the step is the one the script
    raises.  A release that raises is the last call made: the releases
    after it are skipped and its exception replaces the exception of the
    step.  Fewer than three releases are made only in that case. *)
Theorem fatal_step_aborts d sc res s pre c post e :
  run d sc = (res, s) ->
  trace s = pre ++ c :: post ->
  is_goto c || is_act c = true ->
  raises d pre c = Some e ->
  (forall x, In x post -> is_release x = true)
  /\ (exists k, (1 <= k)%nat /\ post = firstn k releases)
  /\ (exists e', res = Exc e')
  /\ (releases_return d -> post = releases /\ res = Exc e)
  /\ (forall a x b e',
        post = a ++ x :: b ->
        raises d (pre ++ c :: a) x = Some e' ->
        b = [] /\ res = Exc e')
  /\ (post <> releases ->
      exists a x e',
        post = a ++ [x]
        /\ raises d (pre ++ c :: a) x = Some e'
        /\ res = Exc e')
  /\ ((forall a x b,
         post = a ++ x :: b -> raises d (pre ++ c :: a) x = None) ->
      post = releases /\ res = Exc e).
Proof.
  intros Hrun Ht Hc Hr.
  destruct (required_step_call _ Hc) as [Hp Ha].
  assert (Ho : outcome d (failure_message sc) pre c = Some e)
    by (now rewrite outcome_plain).
  destruct (run_fatal _ _ _ _ _ _ _ _ Hrun Ht Ha Ho)
    as ((k & Hk & E) & He & Hall & _).
  destruct (run_fatal_tail _ _ _ _ _ _ _ _ Hrun Ht Ha Ho) as (T1 & T2 & T3).
  split.
  { intros x Hx. rewrite E in Hx. now apply firstn_releases_in in Hx. }
  split; [exists k; now split|].
  split; [exact He|].
  split; [exact Hall|].
  split; [exact T1|].
  split; [exact T2 | exact T3].
Qed.

Lemma fatal_step_aborts_witness :
  skipn 9 (trace (snd (run navigation_fails TC004))) = releases
  /\ fst (run navigation_fails TC004) = Exc connection_refused.
Proof.
  destruct (fatal_step_aborts navigation_fails TC004
              (fst (run navigation_fails TC004))
              (snd (run navigation_fails TC004))
              (acquire_calls ++ [goto_commit; page_wait; frame_wait 0%nat])
              (page_goto "http://localhost:8080/login" None 10000)
              (skipn 9 (trace (snd (run navigation_fails TC004))))
              connection_refused)
    as (_ & _ & _ & Hall & _).
  - apply surjective_pairing.
  - vm_compute. reflexivity.
  - reflexivity.
  - reflexivity.
  - apply Hall. intros h c Hc. destruct c; try discriminate Hc; reflexivity.
Defined.

(** * Navigations *)




(** * One assertion, after the setup *)

(** C5: the call sequence of a script holds one assertion, made whenever
    the script returns; in a run it is made at most once, it is the
    terminal assertion of the script, every statement before it was
    executed, and each call before it returned or was a load-state wait
    whose driver error was caught. *)
Theorem assertion_once_after_setup d sc res s :
  run d sc = (res, s) ->
  List.length (filter is_expect (script_calls d sc)) = 1%nat
  /\ (res = Ret tt -> exists pre post, trace s = pre ++ assertion sc :: post)
  /\ (forall pre c post,
        trace s = pre ++ c :: post ->
        is_expect c = true ->
        c = assertion sc
        /\ pre = setup_calls d sc
        /\ (forall x, In x pre -> is_expect x = false)
        /\ (forall x, In x post -> is_expect x = false)
        /\ (forall a x b,
              pre = a ++ x :: b ->
              is_sleep x = true
              \/ raises d a x = None
              \/ (is_wait_for_load_state x = true
                  /\ exists e, raises d a x = Some e
                               /\ is_async_api_Error e = true))).
Proof.
  intros Hrun. split; [|split].
  - unfold script_calls. rewrite filter_app.
    rewrite (filter_none is_expect (setup_calls d sc))
      by apply setup_no_expect.
    reflexivity.
  - intros Hres.
    destruct (run_anatomy _ _ _ _ Hrun)
      as (h & r & rel & r' & E1 & _ & Etr & Eres & _).
    assert (r = None)
      by (rewrite Hres in Eres; destruct r', r; simpl in Eres;
          try discriminate; reflexivity).
    subst r. apply scan_None in E1. simpl in E1.
    exists (setup_calls d sc), (asyncio_sleep 5 :: rel).
    rewrite Etr, E1. unfold script_calls. rewrite <- app_assoc. reflexivity.
  - intros pre c post. apply (run_assertion_place d sc res s pre c post Hrun).
Qed.

Lemma assertion_once_after_setup_witness :
  List.length (filter is_expect (script_calls obliging TC004)) = 1%nat
  /\ exists pre post,
       trace (snd (run obliging TC004)) = pre ++ assertion TC004 :: post.
Proof.
  destruct (assertion_once_after_setup obliging TC004
              (fst (run obliging TC004)) (snd (run obliging TC004)))
    as (H1 & H2 & _).
  - apply surjective_pairing.
  - split; [exact H1|]. apply H2. vm_compute. reflexivity.
Defined.

(** * A failed assertion *)

(** C6 fails as stated.  When the expected text of the publish-fee script
    never shows and [context.close()] then raises, the script raises the
    error of the release: the authored message is not what the run
    reports. *)
Lemma failed_assertion_with_failing_release :
  fst (run text_missing_close_fails TC005) = Exc target_closed
  /\ fst (run text_missing_close_fails TC005)
     <> Exc (AssertionError (failure_message TC005))
  /\ raises text_missing_close_fails
       (setup_calls text_missing_close_fails TC005) (assertion TC005)
     = Some not_visible.
Proof.
  split; [vm_compute; reflexivity|].
  split; [vm_compute; discriminate | vm_compute; reflexivity].
Qed.

(** C6, amended: when the visibility check of the terminal assertion
    fails, the [try] block is left with an [AssertionError] carrying the
    authored message of the script: the settle delay is skipped, only
    releases follow, and the script raises.  The authored error is the one
    the script raises when the releases return.  A release that raises is
    the last call made and its exception replaces the authored error;
    fewer than three releases are made only in that case.  In the seven
    scripts the message starts with "Test case failed: ". *)
Theorem failed_assertion_raises_authored_message d sc res s pre post e :
  run d sc = (res, s) ->
  trace s = pre ++ assertion sc :: post ->
  raises d pre (assertion sc) = Some e ->
  is_AssertionError e = true ->
  (exists k, (1 <= k)%nat /\ post = firstn k releases)
  /\ (exists e', res = Exc e')
  /\ (releases_return d ->
      post = releases /\ res = Exc (AssertionError (failure_message sc)))
  /\ (In sc all_scenarios ->
      prefix "Test case failed: " (failure_message sc) = true)
  /\ (forall a x b e',
        post = a ++ x :: b ->
        raises d (pre ++ assertion sc :: a) x = Some e' ->
        b = [] /\ res = Exc e')
  /\ (post <> releases ->
      exists a x e',
        post = a ++ [x]
        /\ raises d (pre ++ assertion sc :: a) x = Some e'
        /\ res = Exc e')
  /\ ((forall a x b,
         post = a ++ x :: b ->
         raises d (pre ++ assertion sc :: a) x = None) ->
      post = releases /\ res = Exc (AssertionError (failure_message sc))).
Proof.
  intros Hrun Ht Hr He.
  destruct (run_failed_assertion _ _ _ _ _ _ _ Hrun Ht Hr He)
    as (Hk & He' & Hall).
  pose proof (outcome_failed_assertion _ _ _ _ Hr He) as Ho.
  destruct (run_fatal_tail _ _ _ _ _ _ _ _ Hrun Ht eq_refl Ho)
    as (T1 & T2 & T3).
  split; [exact Hk|]. split; [exact He'|]. split; [exact Hall|].
  split; [apply authored_messages|].
  split; [exact T1|]. split; [exact T2 | exact T3].
Qed.

Lemma failed_assertion_raises_authored_message_witness :
  skipn (List.length (setup_calls text_missing TC005) + 1)
    (trace (snd (run text_missing TC005))) = releases
  /\ fst (run text_missing TC005)
     = Exc (AssertionError (failure_message TC005)).
Proof.
  destruct (failed_assertion_raises_authored_message text_missing TC005
              (fst (run text_missing TC005)) (snd (run text_missing TC005))
              (setup_calls text_missing TC005)
              (skipn (List.length (setup_calls text_missing TC005) + 1)
                 (trace (snd (run text_missing TC005))))
              not_visible)
    as (_ & _ & Hall & _).
  - apply surjective_pairing.
  - vm_compute. reflexivity.
  - reflexivity.
  - reflexivity.
  - apply Hall. intros h c Hc. destruct c; try discriminate Hc; reflexivity.
Defined.

(** * The listing-creation script *)




(** * A passed assertion *)

(** C8 fails as stated.  The refund script makes every call, its expected
    text is visible and the settle delay runs; [context.close()] then
    raises, and the script ends with that error instead of returning. *)
Lemma visible_text_with_failing_release :
  run close_fails TC008 =
  (Exc target_closed,
   mkState
     (setup_calls close_fails TC008
      ++ [assertion TC008; asyncio_sleep 5; context_close])
     (Some playwright_obj) (Some browser_obj) (Some context_obj))
  /\ raises close_fails (setup_calls close_fails TC008) (assertion TC008)
     = None.
Proof. split; vm_compute; reflexivity. Qed.

(** C8, amended: when the visibility check of the terminal assertion
    returns, the settle delay of 5 seconds runs next and the teardown
    follows it, releasing context, browser and driver in that order.  The
    script returns without raising when the releases return.  A release
    that raises, whichever of the three, is the last call made and its
    exception is raised by the script; fewer than three releases are made
    only in that case. *)
Theorem visible_text_completes d sc res s pre post :
  run d sc = (res, s) ->
  trace s = pre ++ assertion sc :: post ->
  raises d pre (assertion sc) = None ->
  (exists k, (1 <= k)%nat /\ post = asyncio_sleep 5 :: firstn k releases)
  /\ (releases_return d ->
      res = Ret tt /\ post = asyncio_sleep 5 :: releases)
  /\ (forall e,
        raises d (pre ++ [assertion sc; asyncio_sleep 5]) context_close
        = Some e ->
        res = Exc e)
  /\ (forall a x b e,
        post = asyncio_sleep 5 :: a ++ x :: b ->
        raises d (pre ++ assertion sc :: asyncio_sleep 5 :: a) x = Some e ->
        b = [] /\ res = Exc e)
  /\ (post <> asyncio_sleep 5 :: releases ->
      exists a x e,
        post = asyncio_sleep 5 :: a ++ [x]
        /\ raises d (pre ++ assertion sc :: asyncio_sleep 5 :: a) x = Some e
        /\ res = Exc e)
  /\ ((forall a x b,
         post = asyncio_sleep 5 :: a ++ x :: b ->
         raises d (pre ++ assertion sc :: asyncio_sleep 5 :: a) x = None) ->
      res = Ret tt /\ post = asyncio_sleep 5 :: releases).
Proof.
  intros Hrun Ht Hr.
  assert (Ho : outcome d (failure_message sc) pre (assertion sc) = None)
    by (unfold outcome; rewrite Hr; reflexivity).
  destruct (run_event _ _ _ _ _ _ _ Hrun Ht eq_refl)
    as (h & r & rel & r' & b & rest & _ & _ & _ & _ & _ & Hs & _).
  destruct (assertion_position _ _ _ _ _ Hs eq_refl) as (_ & _ & Hb).
  rewrite Hb in Hs.
  destruct (run_next _ _ _ _ _ _ _ _ _ Hrun Ht eq_refl Ho Hs) as (post' & ->).
  assert (Ht' : trace s
                = (pre ++ [assertion sc]) ++ asyncio_sleep 5 :: post')
    by (rewrite Ht, <- app_assoc; reflexivity).
  assert (Hs' : script_calls d sc
                = (pre ++ [assertion sc]) ++ [asyncio_sleep 5])
    by (rewrite Hs, <- app_assoc; reflexivity).
  destruct (run_completes _ _ _ _ _ _ _ Hrun Ht' eq_refl eq_refl Hs')
    as (r2 & E & ->).
  rewrite <- !app_assoc in E. simpl in E.
  assert (Eh : pre ++ assertion sc :: asyncio_sleep 5 :: post'
               = (pre ++ [assertion sc; asyncio_sleep 5]) ++ post')
    by (rewrite <- app_assoc; reflexivity).
  assert (Hassoc : forall a,
             (pre ++ [assertion sc; asyncio_sleep 5]) ++ a
             = pre ++ assertion sc :: asyncio_sleep 5 :: a)
    by (intros a; rewrite <- app_assoc; reflexivity).
  rewrite Eh in E.
  destruct (scan_releases _ _ _ _ _ E) as (k & Hk & Ek & Hall & Hfirst & _).
  destruct (teardown_after _ _ _ _ _ E) as (T1 & T2 & T3).
  apply app_inv_head in Ek.
  split; [exists k; split; [exact Hk | now rewrite Ek]|].
  split.
  { intros R. destruct (Hall R) as [-> El]. apply app_inv_head in El.
    split; [reflexivity | now rewrite El]. }
  split.
  { intros e He. destruct (Hfirst e He) as [_ ->]. reflexivity. }
  split.
  { intros a x y e Hp Hx. inversion Hp as [Hp']. rewrite <- Hassoc in Hx.
    destruct (T1 a x y e Hp' Hx) as [-> ->]. now split. }
  split.
  { intros Hne.
    destruct T2 as (a & x & e & Hp & Hx & ->).
    - intros C. apply Hne. now rewrite C.
    - exists a, x, e. rewrite <- Hassoc. rewrite Hp. now repeat split. }
  intros Hret. destruct T3 as [-> ->].
  - intros a x y Hp. rewrite Hassoc. apply (Hret a x y). now rewrite Hp.
  - now split.
Qed.

Lemma visible_text_completes_witness :
  fst (run obliging TC008) = Ret tt
  /\ skipn (List.length (setup_calls obliging TC008) + 1)
       (trace (snd (run obliging TC008)))
     = asyncio_sleep 5 :: releases.
Proof.
  destruct (visible_text_completes obliging TC008
              (fst (run obliging TC008)) (snd (run obliging TC008))
              (setup_calls obliging TC008)
              (skipn (List.length (setup_calls obliging TC008) + 1)
                 (trace (snd (run obliging TC008)))))
    as (_ & Hall & _).
  - apply surjective_pairing.
  - vm_compute. reflexivity.
  - reflexivity.
  - apply Hall. intros h c Hc. reflexivity.
Defined.

(** * Exceptions a wait does not tolerate *)

(** C9: when a load-state wait ends with an exception that is not a driver
    error, the handler of the wait does not catch it: no later statement of
    the [try] block is executed, the teardown starts at once with
    [context.close()], and the script raises.  When no release raises, all
    three releases are made and the exception of the wait is the one the
    script raises. *)
Theorem other_exception_in_wait_aborts d sc res s pre c post e :
  run d sc = (res, s) ->
  trace s = pre ++ c :: post ->
  is_wait_for_load_state c = true ->
  raises d pre c = Some e ->
  is_async_api_Error e = false ->
  (forall x, In x post -> is_release x = true)
  /\ (exists k, (1 <= k)%nat /\ post = firstn k releases)
  /\ (exists e', res = Exc e')
  /\ (releases_return d -> post = releases /\ res = Exc e).
Proof.
  intros Hrun Ht Hw Hr He.
  assert (Ha : past_acquisition c = true)
    by (destruct c; try discriminate; reflexivity).
  pose proof (outcome_untolerated d (failure_message sc) _ _ _ Hw Hr He) as Ho.
  destruct (run_fatal _ _ _ _ _ _ _ _ Hrun Ht Ha Ho)
    as ((k & Hk & E) & He' & Hall & _).
  repeat split; trivial.
  - intros x Hx. rewrite E in Hx. now apply firstn_releases_in in Hx.
  - exists k. now split.
  - now apply Hall.
  - now apply Hall.
Qed.

Lemma other_exception_in_wait_aborts_witness :
  skipn 7 (trace (snd (run wait_cancelled TC004))) = releases
  /\ fst (run wait_cancelled TC004) = Exc (OtherException "CancelledError").
Proof.
  destruct (other_exception_in_wait_aborts wait_cancelled TC004
              (fst (run wait_cancelled TC004))
              (snd (run wait_cancelled TC004))
              (acquire_calls ++ [goto_commit]) page_wait
              (skipn 7 (trace (snd (run wait_cancelled TC004))))
              (OtherException "CancelledError"))
    as (_ & _ & _ & Hall).
  - apply surjective_pairing.
  - vm_compute. reflexivity.
  - reflexivity.
  - reflexivity.
  - reflexivity.
  - apply Hall. intros h c Hc. destruct c; try discriminate Hc; reflexivity.
Defined.

(** * Partial acquisition *)

(** C10 fails as stated.  When [browser.new_context()] raises, the driver
    and the browser have been acquired; the [finally] block skips the
    unset context handle and calls [browser.close()]; that call raises, and
    [pw.stop()] is never made although the driver was acquired. *)
Lemma acquired_driver_left_running :
  run context_and_browser_fail TC012 =
  (Exc target_closed,
   mkState
     [ async_playwright_start; chromium_launch true launch_args;
       browser_new_context; browser_close ]
     (Some playwright_obj) (Some browser_obj) None).
Proof. vm_compute. reflexivity. Qed.

(** C10, amended: the three handles start as [None]; a handle is set
    exactly when its acquisition returned; a release is attempted only on a
    handle that is set; when no release raises, every handle that is set is
    released.  When the browser launch raises, the only release made is
    [pw.stop()].  A release that raises is the last call of the run and
    its exception is what the script raises, so the releases after it are
    skipped; a handle that is set is left unreleased only in that case. *)
Theorem releases_only_acquired d sc res s :
  run d sc = (res, s) ->
  (pw initial = None /\ browser initial = None /\ ctx initial = None)
  /\ (pw s <> None <-> raises d [] async_playwright_start = None)
  /\ (browser s <> None <->
      raises d [] async_playwright_start = None
      /\ raises d [async_playwright_start] (chromium_launch true launch_args)
         = None)
  /\ (ctx s <> None <->
      raises d [] async_playwright_start = None
      /\ raises d [async_playwright_start] (chromium_launch true launch_args)
         = None
      /\ raises d [async_playwright_start; chromium_launch true launch_args]
           browser_new_context = None)
  /\ (In context_close (trace s) -> ctx s <> None)
  /\ (In browser_close (trace s) -> browser s <> None)
  /\ (In pw_stop (trace s) -> pw s <> None)
  /\ (releases_return d ->
      (ctx s <> None -> In context_close (trace s))
      /\ (browser s <> None -> In browser_close (trace s))
      /\ (pw s <> None -> In pw_stop (trace s)))
  /\ (forall e,
        raises d [] async_playwright_start = None ->
        raises d [async_playwright_start] (chromium_launch true launch_args)
        = Some e ->
        trace s
        = [ async_playwright_start; chromium_launch true launch_args;
            pw_stop ])
  /\ (forall pre c post e,
        trace s = pre ++ c :: post ->
        is_release c = true ->
        raises d pre c = Some e ->
        post = [] /\ res = Exc e)
  /\ (exists body rel rest,
        trace s = body ++ rel
        /\ (forall x, In x body -> is_release x = false)
        /\ due_of s = rel ++ rest
        /\ (rest <> [] ->
            exists a c e,
              rel = a ++ [c]
              /\ raises d (body ++ a) c = Some e
              /\ res = Exc e)).
Proof.
  intros Hrun.
  destruct (run_anatomy _ _ _ _ Hrun)
    as (h & r & rel & r' & E1 & E2 & Etr & Eres & Hrel & Hh & Ep & Eb & Ec).
  destruct (script_head d sc) as (tl & Hs).
  pose proof E1 as E1'. rewrite Hs in E1'.
  destruct (acquisition_progress _ _ _ _ _ E1') as (P1 & P2 & P3).
  destruct (scan_extends _ _ _ _ _ _ E2) as (k & Hk & rest & Hd).
  apply app_inv_head in Hk. subst k.
  assert (Hin : forall x, In x (trace s) -> is_release x = true ->
                          In x (due (returned h r))).
  { intros x Hx Hr. rewrite Etr in Hx. apply in_app_or in Hx.
    destruct Hx as [Hx|Hx].
    - apply Hh in Hx. congruence.
    - rewrite Hd. apply in_or_app. now left. }
  rewrite Ep, Eb, Ec, !handle_set.
  split; [repeat split|].
  split; [exact P1|]. split; [exact P2|]. split; [exact P3|].
  split; [intros H; now apply due_context, Hin|].
  split; [intros H; now apply due_browser, Hin|].
  split; [intros H; now apply due_driver, Hin|].
  split; [|split; [|split;
    [exact (fun pre c post e =>
              raising_release_is_last d sc res s pre c post e Hrun)
    |exact (releases_up_to_first_raise d sc res s Hrun)]]].
  - intros R.
    rewrite (scan_returning d _ _ h R (due_in _)) in E2.
    injection E2 as E2' _. apply app_inv_head in E2'.
    rewrite Etr, <- E2'.
    repeat split; intros H; apply in_or_app; right.
    + now apply due_context.
    + now apply due_browser.
    + now apply due_driver.
  - intros e H0 H1. rewrite Hs in E1. cbn [scan app] in E1.
    rewrite !outcome_plain in E1 by reflexivity.
    rewrite H0, H1 in E1. inversion E1; subst h r. clear E1.
    change (due _) with [pw_stop] in E2. cbn [scan] in E2.
    rewrite Etr.
    destruct (outcome d _ _ pw_stop); injection E2 as E2' _;
      rewrite <- E2'; reflexivity.
Qed.

Lemma releases_only_acquired_witness :
  trace (snd (run launch_fails TC012))
  = [ async_playwright_start; chromium_launch true launch_args; pw_stop ].
Proof.
  destruct (releases_only_acquired launch_fails TC012
              (fst (run launch_fails TC012)) (snd (run launch_fails TC012)))
    as (_ & _ & _ & _ & _ & _ & _ & _ & H & _).
  - apply surjective_pairing.
  - apply (H (Error "Executable doesn't exist")); reflexivity.
Defined.

(** * Further properties of the scripts *)



(** X2: an exception raised by a script always comes from a call of its
    log, after which only releases were made: that call raised the very
    exception, or it is the terminal assertion, it raised an
    [AssertionError], and the exception is the [AssertionError] with the
    authored message. *)
Theorem raised_error_has_a_cause d sc res s e :
  run d sc = (res, s) ->
  res = Exc e ->
  exists pre c post,
    trace s = pre ++ c :: post
    /\ (forall x, In x post -> is_release x = true)
    /\ (raises d pre c = Some e
        \/ (c = assertion sc
            /\ e = AssertionError (failure_message sc)
            /\ exists e0, raises d pre c = Some e0
                          /\ is_AssertionError e0 = true)).
Proof.
  intros Hrun Hres.
  destruct (run_anatomy _ _ _ _ Hrun)
    as (h & r & rel & r' & E1 & E2 & Etr & Eres & Hrel & _).
  rewrite Hres in Eres. destruct r' as [e'|].
  - inversion Eres; subst e'.
    destruct (scan_cases _ _ _ _ _ _ E2)
      as [(C & _) | (a & c & b & e1 & C & Hd & Hh & _ & Ho)]; [discriminate|].
    inversion C; subst e1. apply app_inv_head in Hh.
    exists (h ++ a), c, []. split; [|split].
    + rewrite Etr, Hh, <- app_assoc. reflexivity.
    + intros x [].
    + left. rewrite outcome_release in Ho; [exact Ho|].
      apply (due_in (returned h r)). rewrite Hd. apply in_elt.
  - destruct r as [e1|]; [|discriminate]. inversion Eres; subst e1.
    destruct (scan_cases _ _ _ _ _ _ E1)
      as [(C & _) | (a & c & b & e1 & C & Hs & Hh & _ & Ho)]; [discriminate|].
    inversion C; subst e1. simpl in Hh, Ho.
    exists a, c, rel. split; [|split].
    + rewrite Etr, Hh, <- app_assoc. reflexivity.
    + exact Hrel.
    + destruct (outcome_Some_inv _ _ _ _ _ Ho) as [H|(Hc & He & H)].
      * now left.
      * right. destruct (assertion_position _ _ _ _ _ Hs Hc) as (_ & -> & _).
        repeat split; trivial.
Qed.

Lemma raised_error_has_a_cause_witness :
  exists pre c post,
    trace (snd (run text_missing TC005)) = pre ++ c :: post
    /\ (forall x, In x post -> is_release x = true)
    /\ (raises text_missing pre c
        = Some (AssertionError (failure_message TC005))
        \/ (c = assertion TC005
            /\ AssertionError (failure_message TC005)
               = AssertionError (failure_message TC005)
            /\ exists e0, raises text_missing pre c = Some e0
                          /\ is_AssertionError e0 = true)).
Proof.
  apply (raised_error_has_a_cause text_missing TC005
           (fst (run text_missing TC005)) (snd (run text_missing TC005))).
  - apply surjective_pairing.
  - vm_compute. reflexivity.
Defined.





(** X5: every click and every fill of a log comes right after
    [context.pages[-1]] and [page.wait_for_timeout(3000)], both of which
    returned: no action is performed without the fixed pause before it. *)
Theorem action_follows_pause d sc res s pre c post :
  run d sc = (res, s) ->
  trace s = pre ++ c :: post ->
  is_action c = true ->
  exists pre',
    pre = pre' ++ [context_pages_last; page_wait_for_timeout 3000]
    /\ raises d pre' context_pages_last = None
    /\ raises d (pre' ++ [context_pages_last]) (page_wait_for_timeout 3000)
       = None.
Proof.
  intros Hrun Ht Hc.
  assert (Hnr : is_release c = false)
    by (destruct c; try discriminate; reflexivity).
  destruct (run_event _ _ _ _ _ _ _ Hrun Ht Hnr)
    as (h & r & rel & r' & b & rest & _ & _ & _ & _ & _ & Hs & _).
  destruct (paused_script d sc pre c (b ++ rest) Hs Hc) as (pre' & Hpre).
  pose proof (run_before _ _ _ _ _ _ _ Hrun Ht Hnr) as P.
  exists pre'. split; [exact Hpre|]. split.
  - rewrite <- (outcome_plain d (failure_message sc)) by reflexivity.
    apply (P pre' context_pages_last [page_wait_for_timeout 3000]).
    exact Hpre.
  - rewrite <- (outcome_plain d (failure_message sc)) by reflexivity.
    apply (P (pre' ++ [context_pages_last]) (page_wait_for_timeout 3000) []).
    rewrite Hpre, <- app_assoc. reflexivity.
Qed.

Lemma action_follows_pause_witness :
  exists pre',
    firstn 16 (trace (snd (run obliging TC004)))
    = pre' ++ [context_pages_last; page_wait_for_timeout 3000]
    /\ raises obliging pre' context_pages_last = None
    /\ raises obliging (pre' ++ [context_pages_last])
         (page_wait_for_timeout 3000) = None.
Proof.
  apply (action_follows_pause obliging TC004
           (fst (run obliging TC004)) (snd (run obliging TC004))
           (firstn 16 (trace (snd (run obliging TC004))))
           (locator_click
              "xpath=html/body/div/div[2]/div/div/div[2]/div[2]/a" 5000)
           (skipn 17 (trace (snd (run obliging TC004))))).
  - apply surjective_pairing.
  - vm_compute. reflexivity.
  - reflexivity.
Defined.

(** X6: a release that raises is the last call of the run, and its
    exception is what the script raises, whatever the [try] block did:
    an error of the teardown masks the outcome of the scenario. *)
Theorem release_error_ends_run d sc res s pre c post e :
  run d sc = (res, s) ->
  trace s = pre ++ c :: post ->
  is_release c = true ->
  raises d pre c = Some e ->
  post = [] /\ res = Exc e.
Proof.
  intros Hrun Ht Hc Hr.
  destruct (run_anatomy _ _ _ _ Hrun)
    as (h & r & rel & r' & _ & E2 & Etr & Eres & _ & Hh & _).
  rewrite Etr in Ht.
  destruct (split_in_releases _ _ _ _ _ Ht Hc Hh) as (a & Hpre & Hrel).
  assert (Ho : outcome d (failure_message sc) (h ++ a) c = Some e)
    by (rewrite outcome_release by exact Hc; now rewrite <- Hpre).
  assert (E : h ++ rel = h ++ a ++ c :: post) by now rewrite Hrel.
  destruct (scan_abort_last _ _ _ _ _ _ _ _ _ _ E2 E Ho) as [-> ->].
  split; [reflexivity | exact Eres].
Qed.

Lemma release_error_ends_run_witness :
  skipn (List.length (script_calls stop_fails TC015) + 3)
    (trace (snd (run stop_fails TC015))) = []
  /\ fst (run stop_fails TC015) = Exc (Error "Connection closed").
Proof.
  apply (release_error_ends_run stop_fails TC015
           (fst (run stop_fails TC015)) (snd (run stop_fails TC015))
           (script_calls stop_fails TC015 ++ [context_close; browser_close])
           pw_stop).
  - apply surjective_pairing.
  - vm_compute. reflexivity.
  - reflexivity.
  - reflexivity.
Defined.

(** X7: in every run, a partly acquired session included, the log is the
    calls of the [try] block, none of them a release, followed by an
    initial segment of the releases of the handles that are set, in the
    order context, browser, driver.  The segment is the whole list when no
    release raises; it is shorter only when the last release made raised,
    and then the script raises the exception of that release. *)
Theorem teardown_of_every_run d sc res s :
  run d sc = (res, s) ->
  exists body rel rest,
    trace s = body ++ rel
    /\ (forall x, In x body -> is_release x = false)
    /\ due_of s = rel ++ rest
    /\ (releases_return d -> rest = [])
    /\ (rest <> [] ->
        exists pre c e,
          rel = pre ++ [c]
          /\ raises d (body ++ pre) c = Some e
          /\ res = Exc e).
Proof.
  intros Hrun.
  destruct (run_anatomy _ _ _ _ Hrun)
    as (h & r & rel & r' & _ & E2 & Etr & Eres & _ & Hh & Ep & Eb & Ec).
  rewrite <- (due_of_state s _ Ep Eb Ec) in E2.
  destruct (scan_extends _ _ _ _ _ _ E2) as (k & Hk & rest & Hd).
  apply app_inv_head in Hk. subst k.
  exists h, rel, rest. repeat split; trivial.
  - intros R.
    assert (Hin : forall x, In x (due_of s) -> is_release x = true).
    { intros x. rewrite (due_of_state s _ Ep Eb Ec). apply due_in. }
    rewrite (scan_returning d _ _ h R Hin) in E2.
    injection E2 as E2a _. apply app_inv_head in E2a.
    rewrite E2a in Hd. rewrite <- (app_nil_r rel) in Hd at 1.
    apply app_inv_head in Hd. now symmetry.
  - intros Hrest.
    destruct (scan_cases _ _ _ _ _ _ E2)
      as [(_ & Hh' & _) | (a & c & b & e & C & Hd' & Hh' & _ & Ho)].
    + exfalso. apply app_inv_head in Hh'. rewrite Hh' in Hd.
      rewrite <- (app_nil_r (due_of s)) in Hd at 1.
      apply app_inv_head in Hd. now apply Hrest.
    + apply app_inv_head in Hh'. exists a, c, e. split; [exact Hh'|].
      split.
      * rewrite <- (outcome_release d (failure_message sc)); [exact Ho|].
        rewrite (due_of_state s _ Ep Eb Ec) in Hd'.
        apply (due_in (returned h r)). rewrite Hd'. apply in_elt.
      * rewrite Eres, C. reflexivity.
Qed.

Lemma teardown_of_every_run_witness :
  exists body rel rest,
    trace (snd (run context_and_browser_fail TC018)) = body ++ rel
    /\ (forall x, In x body -> is_release x = false)
    /\ due_of (snd (run context_and_browser_fail TC018)) = rel ++ rest
    /\ (releases_return context_and_browser_fail -> rest = [])
    /\ (rest <> [] ->
        exists pre c e,
          rel = pre ++ [c]
          /\ raises context_and_browser_fail (body ++ pre) c = Some e
          /\ fst (run context_and_browser_fail TC018) = Exc e).
Proof.
  apply (teardown_of_every_run context_and_browser_fail TC018
           (fst (run context_and_browser_fail TC018))
           (snd (run context_and_browser_fail TC018))).
  apply surjective_pairing.
Defined.

(** X8: the calls a run makes before its teardown are an initial segment
    of the call sequence of the script: statements are executed in the
    order written, none is skipped and none is repeated.  A run that stops
    before the end of the sequence raises. *)
Theorem calls_in_script_order d sc res s :
  run d sc = (res, s) ->
  exists k rel,
    trace s = firstn k (script_calls d sc) ++ rel
    /\ (k <= List.length (script_calls d sc))%nat
    /\ (forall x, In x rel -> is_release x = true)
    /\ ((k < List.length (script_calls d sc))%nat -> exists e, res = Exc e).
Proof.
  intros Hrun.
  destruct (run_anatomy _ _ _ _ Hrun)
    as (h & r & rel & r' & E1 & _ & Etr & Eres & Hrel & _).
  destruct (scan_extends _ _ _ _ _ _ E1) as (p & Hp & rest & Hs).
  simpl in Hp. subst p.
  exists (List.length h), rel.
  assert (Hf : firstn (List.length h) (script_calls d sc) = h).
  { rewrite Hs, firstn_app, Nat.sub_diag, firstn_all. simpl.
    now rewrite app_nil_r. }
  rewrite Hf. split; [exact Etr|]. split.
  - rewrite Hs, length_app. lia.
  - split; [exact Hrel|]. intros Hlt.
    destruct (scan_cases _ _ _ _ _ _ E1)
      as [(_ & Hh & _) | (a & c & b & e & C & _)].
    + simpl in Hh. rewrite Hh in Hlt. lia.
    + subst r. destruct r'; rewrite Eres; eexists; reflexivity.
Qed.

Lemma calls_in_script_order_witness :
  exists k rel,
    trace (snd (run navigation_fails TC005))
    = firstn k (script_calls navigation_fails TC005) ++ rel
    /\ (k <= List.length (script_calls navigation_fails TC005))%nat
    /\ (forall x, In x rel -> is_release x = true)
    /\ ((k < List.length (script_calls navigation_fails TC005))%nat ->
        exists e, fst (run navigation_fails TC005) = Exc e).
Proof.
  apply (calls_in_script_order navigation_fails TC005
           (fst (run navigation_fails TC005))
           (snd (run navigation_fails TC005))).
  apply surjective_pairing.
Defined.
